(** * pkg/testdb/pristine.go: the background pool of pristine test databases

    A shallow embedding of [pristineDBs], [backgroundDBPool.start],
    [backgroundDBPool.prepareNewDB] and [backgroundDBPool.prepareDBs].

    - Function bodies are written in a state-and-abort monad over the
      process memory ([State]); [log.Fatal] and run-time panics end the
      process ([Stop]).
    - Package [dbutil2], the [createdb] command and the operating system are
      collaborators outside this package: they are the [Backend] interface.
    - Goroutines are tasks in the state; a scheduler action picks which one
      advances ([sys_step]).  Time is not modelled: the 45 second timer of
      the [select] in [pristineDBs] is an action the scheduler may take. *)

From stdpp Require Import base gmap list strings pretty relations.
From Stdlib Require Import ZArith Ascii.

Local Open Scope Z_scope.

(** ** Collaborators *)

(** Addresses of heap objects ([*dbutil2.Schema], [*backgroundDBPool]). *)
Abbreviation loc := nat (only parsing).

(** What this package uses of [dbutil2], [os/exec] and the database server.
    Each operation reads and updates the server's state ([World]) and may
    return a Go [error] ([None] is the nil error).  [schema_at] gives the
    [dbutil2.Schema] objects of the calling tests, by address. *)
Class Backend := {
  Schema : Type;
  Handle : Type;
  error : Type;
  World : Type;
  schema_at : loc → Schema;
  DataSource : Handle → string;
  createdb : string → World → option error * World;
  dbutil2_Open : string → Schema → World → (Handle + error) * World;
  DropSchema : Handle → World → option error * World;
  CreateSchema : Handle → World → option error * World;
  TruncateTables : Handle → World → option error * World;
}.

(** The command-line flags, the package-level [label] and [os.Getpid()]. *)
Class Config := {
  dropSchema : bool;
  createSchema : bool;
  truncate : bool;
  verbose : bool;
  initialPoolSize : Z;
  label : string;
  Getpid : Z;
}.

(** ** Integers *)

(** Two's complement wrap-around of [int32] arithmetic. *)
Definition wrap32 (z : Z) : Z := (z + 2 ^ 31) mod 2 ^ 32 - 2 ^ 31.

Definition MaxInt32 : Z := 2 ^ 31 - 1.
Definition MinInt32 : Z := - 2 ^ 31.

(** [time.Duration] counts nanoseconds. *)
Definition Second : Z := 1000000000.
Definition timeout : Z := 45 * Second.

(** [fmt.Sprintf("sgtmp-%s-%s-%d-%d", poolName, label, id, os.Getpid())] *)
Definition dbname_of (poolName lbl : string) (id pid : Z) : string :=
  "sgtmp-" +:+ poolName +:+ "-" +:+ lbl +:+ "-" +:+ pretty id +:+ "-" +:+ pretty pid.

(** The characters of a string, and the one that separates the parts of a
    name. *)
Abbreviation chars := String.list_ascii_of_string.

Definition dash : ascii := "-"%char.

(** ** Counting in traces *)

Fixpoint count {A} (f : A → bool) (l : list A) : nat :=
  match l with
  | [] => 0%nat
  | x :: l => ((if f x then 1 else 0) + count f l)%nat
  end.

Section Testdb.
Context `{BE : Backend} `{CF : Config}.

(** ** Process memory *)

(** A buffered channel of [*dbutil2.Handle]. *)
Record Chan := { buf : list Handle; cap : Z }.

Inductive Logger := StderrLogger | DiscardLogger.

Record backgroundDBPool := {
  schema : option loc;              (* nil is None *)
  readyDBs : option Chan;           (* the nil channel is None *)
  dropped : option (gmap Z bool);   (* the nil map is None *)
  created : option (gmap Z bool);
  nextID : Z;                       (* int32 *)
  vlog : option Logger;
}.

(** [&backgroundDBPool{}] *)
Definition zero_pool : backgroundDBPool :=
  {| schema := None; readyDBs := None; dropped := None; created := None;
     nextID := 0; vlog := None |}.

Inductive LogMsg :=
  | GotNewDBs (ds : string)
  | DroppingSchema (id : Z)
  | CreatingSchema (id : Z)
  | TruncatingTables (id : Z)
  | PristineReady (id : Z)
  | OpenedNewDB (dbname : string).

(** What the process did, oldest first. *)
Inductive Event :=
  | EvLog (m : LogMsg)
  | EvNewPool (poolName : string) (b : loc)
  | EvGo (b : loc) (poolName : string)
  | EvAddInt32 (b : loc) (id : Z)
  | EvCreatedb (dbname : string) (err : option error)
  | EvOpen (ds : string) (err : option error)
  | EvDropSchema (b : loc) (id : Z) (mdb : Handle)
  | EvCreateSchema (b : loc) (id : Z) (mdb : Handle)
  | EvTruncateTables (b : loc) (id : Z) (mdb : Handle)
  | EvSend (b : loc) (dbh : Handle)
  | EvRecv (b : loc) (dbh : Handle).

(** A goroutine running [b.prepareNewDB(poolName)], by the line it is at. *)
Inductive Task :=
  | Spawned (b : loc) (poolName : string)            (* before line 139 *)
  | Allocated (b : loc) (poolName : string) (id : Z) (* before line 140 *)
  | Sending (b : loc) (dbh : Handle)                 (* at line 150 *)
  | Finished.

Record State := {
  backgroundDBPoolsByName : gmap string loc;
  heap : list backgroundDBPool;
  CreateUnloggedTables : bool;
  goroutines : list Task;
  world : World;
  trace : list Event;
}.

(** ** How the process stops *)

Inductive Fatal :=
  | PoolNotAvailable (poolName : string)   (* line 74 *)
  | SchemaMismatch (poolName : string)     (* line 78 *)
  | ProvisionTimeout (d : Z)               (* line 91 *)
  | ConfigError                            (* line 118 *)
  | OpenFailed (err : error)               (* line 144 *)
  | SchemaDropFailed (err : error)         (* line 163 *)
  | SchemaCreateFailed (err : error)       (* line 172 *)
  | TruncateFailed (err : error).          (* line 181 *)

Inductive Panic :=
  | NilDereference
  | NilMapAssignment
  | MakechanSize
  | Unreachable.

Inductive Abort :=
  | LogFatal (f : Fatal)
  | GoPanic (p : Panic).

Inductive Res (A : Type) :=
  | Ok (a : A) (s : State)
  | Stop (e : Abort) (s : State).
Arguments Ok {A} a s.
Arguments Stop {A} e s.

Definition M (A : Type) : Type := State → Res A.

#[global] Instance M_ret : MRet M := λ A a s, Ok a s.
#[global] Instance M_bind : MBind M := λ A B f m s,
  match m s with
  | Ok a s' => f a s'
  | Stop e s' => Stop e s'
  end.

Definition fatal {A} (f : Fatal) : M A := λ s, Stop (LogFatal f) s.
Definition panic {A} (p : Panic) : M A := λ s, Stop (GoPanic p) s.
Definition when (c : bool) (m : M unit) : M unit := if c then m else mret tt.

(** Field updates of the process memory. *)
Definition set_registry (r : gmap string loc) (s : State) : State :=
  {| backgroundDBPoolsByName := r;
     heap := heap s;
     CreateUnloggedTables := CreateUnloggedTables s;
     goroutines := goroutines s;
     world := world s;
     trace := trace s |}.

Definition set_heap (h : list backgroundDBPool) (s : State) : State :=
  {| backgroundDBPoolsByName := backgroundDBPoolsByName s;
     heap := h;
     CreateUnloggedTables := CreateUnloggedTables s;
     goroutines := goroutines s;
     world := world s;
     trace := trace s |}.

Definition set_CreateUnloggedTables (v : bool) (s : State) : State :=
  {| backgroundDBPoolsByName := backgroundDBPoolsByName s;
     heap := heap s;
     CreateUnloggedTables := v;
     goroutines := goroutines s;
     world := world s;
     trace := trace s |}.

Definition set_goroutines (g : list Task) (s : State) : State :=
  {| backgroundDBPoolsByName := backgroundDBPoolsByName s;
     heap := heap s;
     CreateUnloggedTables := CreateUnloggedTables s;
     goroutines := g;
     world := world s;
     trace := trace s |}.

Definition set_world (w : World) (s : State) : State :=
  {| backgroundDBPoolsByName := backgroundDBPoolsByName s;
     heap := heap s;
     CreateUnloggedTables := CreateUnloggedTables s;
     goroutines := goroutines s;
     world := w;
     trace := trace s |}.

Definition add_event (e : Event) (s : State) : State :=
  {| backgroundDBPoolsByName := backgroundDBPoolsByName s;
     heap := heap s;
     CreateUnloggedTables := CreateUnloggedTables s;
     goroutines := goroutines s;
     world := world s;
     trace := trace s ++ [e] |}.

Definition modify_state (f : State → State) : M unit := λ s, Ok tt (f s).

Definition emit (e : Event) : M unit := modify_state (add_event e).

(** Reading through a [*backgroundDBPool]. *)
Definition get_pool (b : loc) : M backgroundDBPool := λ s,
  match heap s !! b with
  | Some p => Ok p s
  | None => Stop (GoPanic NilDereference) s
  end.

Definition modify_pool (b : loc) (f : backgroundDBPool → backgroundDBPool) : M unit :=
  p ← get_pool b; modify_state (λ s, set_heap (<[b := f p]> (heap s)) s).

(** An operation of the backend, run on the server's current state. *)
Definition external {R} (op : World → R * World) : M R := λ s,
  let '(r, w) := op (world s) in Ok r (set_world w s).

(** Field updates of a pool. *)
Definition with_schema (x : option loc) (p : backgroundDBPool) :=
  {| schema := x; readyDBs := readyDBs p; dropped := dropped p;
     created := created p; nextID := nextID p; vlog := vlog p |}.
Definition with_readyDBs (x : option Chan) (p : backgroundDBPool) :=
  {| schema := schema p; readyDBs := x; dropped := dropped p;
     created := created p; nextID := nextID p; vlog := vlog p |}.
Definition with_dropped (x : option (gmap Z bool)) (p : backgroundDBPool) :=
  {| schema := schema p; readyDBs := readyDBs p; dropped := x;
     created := created p; nextID := nextID p; vlog := vlog p |}.
Definition with_created (x : option (gmap Z bool)) (p : backgroundDBPool) :=
  {| schema := schema p; readyDBs := readyDBs p; dropped := dropped p;
     created := x; nextID := nextID p; vlog := vlog p |}.
Definition with_nextID (x : Z) (p : backgroundDBPool) :=
  {| schema := schema p; readyDBs := readyDBs p; dropped := dropped p;
     created := created p; nextID := x; vlog := vlog p |}.
Definition with_vlog (x : option Logger) (p : backgroundDBPool) :=
  {| schema := schema p; readyDBs := readyDBs p; dropped := dropped p;
     created := created p; nextID := nextID p; vlog := x |}.

(** [m[id]] on a [map[int]bool]: a missing key, or a nil map, reads false. *)
Definition map_get (m : option (gmap Z bool)) (id : Z) : bool :=
  default false (m ≫= (.!! id)).

(** [m[id] = true]: assignment to an entry of a nil map panics. *)
Definition map_set_true (m : option (gmap Z bool)) (id : Z) : M (gmap Z bool) :=
  match m with
  | Some m => mret (<[id := true]> m)
  | None => panic NilMapAssignment
  end.

(** [b.vlog.Printf(...)] *)
Definition vlog_Printf (b : loc) (msg : LogMsg) : M unit :=
  p ← get_pool b;
  match vlog p with
  | None => panic NilDereference
  | Some StderrLogger => emit (EvLog msg)
  | Some DiscardLogger => mret tt
  end.

(** ** backgroundDBPool.prepareDBs (lines 153-188)

    The whole body runs with [b.mu] held, so no other [prepareDBs] on the
    same pool interleaves with it. *)

(** Lines 159-165: the body of [if drop && !b.dropped[id]]. *)
Definition drop_schema (b : loc) (id : Z) (mdb : Handle) : M unit :=
  when verbose (vlog_Printf b (DroppingSchema id));;
  emit (EvDropSchema b id mdb);;
  err ← external (DropSchema mdb);
  match err with
  | Some e => fatal (SchemaDropFailed e)
  | None =>
      p ← get_pool b;
      m ← map_set_true (dropped p) id;
      modify_pool b (with_dropped (Some m))
  end.

(** Lines 168-174: the body of [if create && !b.created[id]]. *)
Definition create_schema (b : loc) (id : Z) (mdb : Handle) : M unit :=
  when verbose (vlog_Printf b (CreatingSchema id));;
  emit (EvCreateSchema b id mdb);;
  err ← external (CreateSchema mdb);
  match err with
  | Some e => fatal (SchemaCreateFailed e)
  | None =>
      p ← get_pool b;
      m ← map_set_true (created p) id;
      modify_pool b (with_created (Some m))
  end.

(** Lines 177-182: the body of [if truncate]. *)
Definition truncate_tables (b : loc) (id : Z) (mdb : Handle) : M unit :=
  when verbose (vlog_Printf b (TruncatingTables id));;
  emit (EvTruncateTables b id mdb);;
  err ← external (TruncateTables mdb);
  match err with
  | Some e => fatal (TruncateFailed e)
  | None => mret tt
  end.

Definition prepareDBs (b : loc) (id : Z) (mdb : Handle) (drop create trunc : bool)
    : M unit :=
  p ← get_pool b;
  when (drop && negb (map_get (dropped p) id)) (drop_schema b id mdb);;
  p ← get_pool b;
  when (create && negb (map_get (created p) id)) (create_schema b id mdb);;
  when trunc (truncate_tables b id mdb);;
  when verbose (vlog_Printf b (PristineReady id)).

(** ** backgroundDBPool.prepareNewDB (lines 138-151) *)

(** [go b.prepareNewDB(poolName)] *)
Definition go_prepareNewDB (b : loc) (poolName : string) : M unit :=
  modify_state (λ s, set_goroutines (goroutines s ++ [Spawned b poolName]) s);;
  emit (EvGo b poolName).

(** [atomic.AddInt32(&b.nextID, delta)] (line 139): one indivisible step. *)
Definition AddInt32 (b : loc) (delta : Z) : M Z :=
  p ← get_pool b;
  let new := wrap32 (nextID p + delta) in
  modify_pool b (with_nextID new);;
  emit (EvAddInt32 b new);;
  mret new.

(** [*b.schema] *)
Definition deref_schema (x : option loc) : M Schema :=
  match x with
  | Some l => mret (schema_at l)
  | None => panic NilDereference
  end.

(** Lines 140-149: from the name of the database to the prepared handle. *)
Definition provision (b : loc) (poolName : string) (id : Z) : M Handle :=
  let dbname := dbname_of poolName label id Getpid in
  err ← external (createdb dbname);
  emit (EvCreatedb dbname err);;
  p ← get_pool b;
  sch ← deref_schema (schema p);
  r ← external (dbutil2_Open ("dbname=" +:+ dbname) sch);
  match r with
  | inr err =>
      emit (EvOpen ("dbname=" +:+ dbname) (Some err));;
      fatal (OpenFailed err)
  | inl dbh =>
      emit (EvOpen ("dbname=" +:+ dbname) None);;
      prepareDBs b id dbh dropSchema createSchema truncate;;
      when verbose (vlog_Printf b (OpenedNewDB dbname));;
      mret dbh
  end.

(** [b.readyDBs <- dbh] (line 150) when the buffer has room; [None] when the
    send has to wait. *)
Definition send (b : loc) (dbh : Handle) (s : State) : option State :=
  p ← heap s !! b;
  ch ← readyDBs p;
  if bool_decide (Z.of_nat (length (buf ch)) < cap ch) then
    Some (add_event (EvSend b dbh)
            (set_heap (<[b := with_readyDBs (Some {| buf := buf ch ++ [dbh]; cap := cap ch |}) p]>
                         (heap s)) s))
  else None.

(** ** backgroundDBPool.start (lines 114-136) *)

(** [make(chan *dbutil2.Handle, n)] *)
Definition makechan (n : Z) : M Chan :=
  if bool_decide (n < 0) then panic MakechanSize
  else mret {| buf := []; cap := n |}.

Fixpoint repeatM (n : nat) (m : M unit) : M unit :=
  match n with
  | O => mret tt
  | S n => m;; repeatM n m
  end.

Definition start (b : loc) (poolName : string) (sch : option loc) : M unit :=
  modify_pool b (with_schema sch);;
  when (bool_decide (label = "")) (fatal ConfigError);;
  modify_pool b (with_vlog (Some (if verbose then StderrLogger else DiscardLogger)));;
  modify_state (set_CreateUnloggedTables true);;
  modify_pool b (with_created (Some ∅));;
  modify_pool b (with_dropped (Some ∅));;
  ch ← makechan initialPoolSize;
  modify_pool b (with_readyDBs (Some ch));;
  (* for i := 0; i < *initialPoolSize; i++ *)
  repeatM (Z.to_nat initialPoolSize) (go_prepareNewDB b poolName).

(** ** pristineDBs (lines 63-94) *)

(** [backgroundDBPoolsByName[poolName]] *)
Definition registry_lookup (poolName : string) : M (option loc) := λ s,
  Ok (backgroundDBPoolsByName s !! poolName) s.

(** [backgroundDBPoolsByName[poolName] = &backgroundDBPool{}] *)
Definition registry_store_new (poolName : string) : M unit :=
  modify_state (λ s,
    let b := length (heap s) in
    add_event (EvNewPool poolName b)
      (set_registry (<[poolName := b]> (backgroundDBPoolsByName s))
         (set_heap (heap s ++ [zero_pool]) s))).

(** Lines 65-71, run with [backgroundDBPoolsLock] held. *)
Definition lookup_or_create (poolName : string) (sch : option loc) : M (option loc) :=
  e ← registry_lookup poolName;
  match e with
  | Some _ => mret tt
  | None =>
      registry_store_new poolName;;
      b ← registry_lookup poolName;
      match b with
      | Some b => start b poolName sch
      | None => panic NilDereference
      end
  end;;
  registry_lookup poolName.

(** Lines 64-81: up to and including the [go] statement. *)
Definition pristineDBs_enter (poolName : string) (sch : option loc) : M loc :=
  b ← lookup_or_create poolName sch;
  match b with
  | None => fatal (PoolNotAvailable poolName)
  | Some b =>
      p ← get_pool b;
      when (bool_decide (sch ≠ None ∧ schema p ≠ sch)) (fatal (SchemaMismatch poolName));;
      go_prepareNewDB b poolName;;
      mret b
  end.

(** Where the receive of the [select] (line 85) takes its value from: the
    head of the buffer, or a sender that waits at line 150 because the
    buffer is full (for capacity 0 that is every sender). *)
Inductive Source := FromBuffer | FromSender (g : nat).

Definition take (b : loc) (src : Source) (s : State) : option (Handle * State) :=
  p ← heap s !! b;
  ch ← readyDBs p;
  match src with
  | FromBuffer =>
      match buf ch with
      | dbh :: rest =>
          Some (dbh, set_heap (<[b := with_readyDBs (Some {| buf := rest; cap := cap ch |}) p]>
                                (heap s)) s)
      | [] => None
      end
  | FromSender g =>
      match goroutines s !! g with
      | Some (Sending b' dbh') =>
          if bool_decide (b' = b ∧ Z.of_nat (length (buf ch)) = cap ch) then
            match buf ch ++ [dbh'] with
            | dbh :: rest =>
                Some (dbh,
                      add_event (EvSend b dbh')
                        (set_goroutines (<[g := Finished]> (goroutines s))
                           (set_heap (<[b := with_readyDBs (Some {| buf := rest; cap := cap ch |}) p]>
                                        (heap s)) s)))
            | [] => None
            end
          else None
      | _ => None
      end
  end.

(** Lines 85-89; [None] when there is nothing to receive. *)
Definition select_receive (b : loc) (src : Source) (s : State) : option (Res Handle) :=
  '(dbh, s') ← take b src s;
  Some ((emit (EvRecv b dbh);;
         when verbose (vlog_Printf b (GotNewDBs (DataSource dbh)));;
         mret dbh) s').

(** ** The process: callers, goroutines and the scheduler *)

(** A test that called [pristineDBs]: blocked in the [select] on pool [b],
    or back with its handle. *)
Inductive Caller :=
  | Waiting (b : loc)
  | Returned (dbh : Handle).

Record Sys := { st : State; callers : list Caller }.

Inductive Next :=
  | Continue (sy : Sys)
  | Crash (e : Abort) (s : State).

Inductive Action :=
  | Call (poolName : string) (sch : option loc)  (* a test calls pristineDBs *)
  | Receive (w : nat) (src : Source)             (* caller w: line 85 *)
  | Timeout (w : nat)                            (* caller w: line 90 *)
  | Run (g : nat).                               (* goroutine g advances *)

Definition advance (g : nat) (m : M Task) (sy : Sys) : Next :=
  match m (st sy) with
  | Ok t s' =>
      Continue {| st := set_goroutines (<[g := t]> (goroutines s')) s';
                  callers := callers sy |}
  | Stop e s' => Crash e s'
  end.

(** One scheduler action; [None] when the action is not enabled. *)
Definition sys_step (a : Action) (sy : Sys) : option Next :=
  match a with
  | Call poolName sch =>
      Some match pristineDBs_enter poolName sch (st sy) with
           | Ok b s' => Continue {| st := s'; callers := callers sy ++ [Waiting b] |}
           | Stop e s' => Crash e s'
           end
  | Receive w src =>
      match callers sy !! w with
      | Some (Waiting b) =>
          match select_receive b src (st sy) with
          | Some (Ok dbh s') =>
              Some (Continue {| st := s'; callers := <[w := Returned dbh]> (callers sy) |})
          | Some (Stop e s') => Some (Crash e s')
          | None => None
          end
      | _ => None
      end
  | Timeout w =>
      match callers sy !! w with
      | Some (Waiting b) => Some (Crash (LogFatal (ProvisionTimeout timeout)) (st sy))
      | _ => None
      end
  | Run g =>
      match goroutines (st sy) !! g with
      | Some (Spawned b poolName) =>
          Some (advance g (id ← AddInt32 b 1; mret (Allocated b poolName id)) sy)
      | Some (Allocated b poolName id) =>
          Some (advance g (dbh ← provision b poolName id; mret (Sending b dbh)) sy)
      | Some (Sending b dbh) =>
          s' ← send b dbh (st sy);
          Some (Continue {| st := set_goroutines (<[g := Finished]> (goroutines s')) s';
                            callers := callers sy |})
      | _ => None
      end
  end.

Definition step (sy sy' : Sys) : Prop := ∃ a, sys_step a sy = Some (Continue sy').
Definition steps : relation Sys := rtc step.

(** Running a schedule; it stops at the first crash. *)
Fixpoint run (sched : list Action) (sy : Sys) : option Next :=
  match sched with
  | [] => Some (Continue sy)
  | a :: sched =>
      match sys_step a sy with
      | Some (Continue sy') => run sched sy'
      | r => r
      end
  end.

(** The process before the first call. *)
Definition init (w : World) (unlogged : bool) : Sys :=
  {| st := {| backgroundDBPoolsByName := ∅; heap := []; CreateUnloggedTables := unlogged;
              goroutines := []; world := w; trace := [] |};
     callers := [] |}.

Definition reachable (sy : Sys) : Prop := ∃ w u, steps (init w u) sy.

(** The actions of caller [w] itself: the two cases of its [select]. *)
Definition own (w : nat) (a : Action) : bool :=
  match a with
  | Receive w' _ => bool_decide (w' = w)
  | Timeout w' => bool_decide (w' = w)
  | _ => false
  end.

(** How one call of [pristineDBs] ends. *)
Inductive Outcome :=
  | Returns (b : loc) (dbh : Handle)   (* line 89, dbh received from pool b *)
  | Dies (e : Abort)                   (* the call stops the process *)
  | Killed (e : Abort).                (* the process is stopped while the call waits *)

Inductive pristineDBs (poolName : string) (sch : option loc) (sy : Sys) : Outcome → Prop :=
  | pristine_enter_dies e s :
      sys_step (Call poolName sch) sy = Some (Crash e s) →
      pristineDBs poolName sch sy (Dies e)
  | pristine_receive sy1 sy2 b src dbh sy3 :
      sys_step (Call poolName sch) sy = Some (Continue sy1) →
      steps sy1 sy2 →
      callers sy2 !! length (callers sy) = Some (Waiting b) →
      sys_step (Receive (length (callers sy)) src) sy2 = Some (Continue sy3) →
      callers sy3 !! length (callers sy) = Some (Returned dbh) →
      pristineDBs poolName sch sy (Returns b dbh)
  | pristine_receive_dies sy1 sy2 src e s :
      sys_step (Call poolName sch) sy = Some (Continue sy1) →
      steps sy1 sy2 →
      sys_step (Receive (length (callers sy)) src) sy2 = Some (Crash e s) →
      pristineDBs poolName sch sy (Dies e)
  | pristine_timeout sy1 sy2 e s :
      sys_step (Call poolName sch) sy = Some (Continue sy1) →
      steps sy1 sy2 →
      sys_step (Timeout (length (callers sy))) sy2 = Some (Crash e s) →
      pristineDBs poolName sch sy (Dies e)
  | pristine_killed sy1 sy2 b a e s :
      (* a goroutine or another caller calls log.Fatal or panics while this
         call is blocked in its select *)
      sys_step (Call poolName sch) sy = Some (Continue sy1) →
      steps sy1 sy2 →
      callers sy2 !! length (callers sy) = Some (Waiting b) →
      own (length (callers sy)) a = false →
      sys_step a sy2 = Some (Crash e s) →
      pristineDBs poolName sch sy (Killed e).

(** The ways a provisioning goroutine stops the process: the nil
    dereference of line 142 and the fatal errors of lines 144, 163, 172 and
    181. *)
Definition provisioning_failure (e : Abort) : Prop :=
  e = GoPanic NilDereference ∨
  (∃ err, e = LogFatal (OpenFailed err)) ∨
  (∃ err, e = LogFatal (SchemaDropFailed err)) ∨
  (∃ err, e = LogFatal (SchemaCreateFailed err)) ∨
  (∃ err, e = LogFatal (TruncateFailed err)).

(** The ways another call of [pristineDBs] stops a process that has a pool:
    lines 78 and 91. *)
Definition other_call_failure (e : Abort) : Prop :=
  (∃ n, e = LogFatal (SchemaMismatch n)) ∨
  e = LogFatal (ProvisionTimeout timeout).

(** ** Reading traces *)




Definition is_new_pool (poolName : string) (e : Event) : bool :=
  match e with
  | EvNewPool n _ => bool_decide (n = poolName)
  | _ => false
  end.

Definition is_go (b : loc) (e : Event) : bool :=
  match e with
  | EvGo b' _ => bool_decide (b' = b)
  | _ => false
  end.

Definition is_open (e : Event) : bool :=
  match e with
  | EvOpen _ _ => true
  | _ => false
  end.

(** The identities that the runs on pool [b] were given, in allocation order. *)
Fixpoint identities (b : loc) (tr : list Event) : list Z :=
  match tr with
  | [] => []
  | EvAddInt32 b' id :: tr =>
      if bool_decide (b' = b) then id :: identities b tr else identities b tr
  | _ :: tr => identities b tr
  end.

(** ** Specifications

    [wp m Q s]: if [m] returns from [s], its result and final state satisfy
    [Q]. *)
Definition wp {A} (m : M A) (Q : A → State → Prop) (s : State) : Prop :=
  match m s with
  | Ok a s' => Q a s'
  | Stop _ _ => True
  end.


(** The pool that [start] leaves behind. *)
Definition started_pool (sch : option loc) (p : backgroundDBPool) : backgroundDBPool :=
  {| schema := sch;
     readyDBs := Some {| buf := []; cap := initialPoolSize |};
     dropped := Some ∅;
     created := Some ∅;
     nextID := nextID p;
     vlog := Some (if verbose then StderrLogger else DiscardLogger) |}.

Definition add_events (evs : list Event) (s : State) : State :=
  foldl (λ s e, add_event e s) s evs.

(** The state that [start] leaves behind. *)
Definition after_start (b : loc) (poolName : string) (sch : option loc)
    (p : backgroundDBPool) (s : State) : State :=
  let n := Z.to_nat initialPoolSize in
  add_events (replicate n (EvGo b poolName))
    (set_goroutines (goroutines s ++ replicate n (Spawned b poolName))
       (set_heap (<[b := started_pool sch p]> (heap s))
          (set_CreateUnloggedTables true s))).

(** The state after [go b.prepareNewDB(poolName)]. *)
Definition after_go (b : loc) (poolName : string) (s : State) : State :=
  add_event (EvGo b poolName) (set_goroutines (goroutines s ++ [Spawned b poolName]) s).

(** The state after line 67. *)
Definition after_store_new (poolName : string) (s : State) : State :=
  add_event (EvNewPool poolName (length (heap s)))
    (set_registry (<[poolName := length (heap s)]> (backgroundDBPoolsByName s))
       (set_heap (heap s ++ [zero_pool]) s)).

(** What a pool keeps while it is used: everything that [start] set, and
    the counter. *)
Definition keeps_binding (p p' : backgroundDBPool) : Prop :=
  schema p' = schema p ∧ vlog p' = vlog p ∧ nextID p' = nextID p ∧
  (is_Some (dropped p) → is_Some (dropped p')) ∧
  (is_Some (created p) → is_Some (created p')) ∧
  (∀ ch, readyDBs p = Some ch → ∃ ch', readyDBs p' = Some ch' ∧ cap ch' = cap ch).

(** Events that neither construct a pool nor allocate an identity. *)
Definition quiet (evs : list Event) : Prop :=
  (∀ n, count (is_new_pool n) evs = 0%nat) ∧ (∀ b, identities b evs = []).

(** [frame s s']: from [s] to [s'] the registry and the set of pools are
    the same, every pool keeps its binding, and the new events are quiet. *)
Definition frame (s s' : State) : Prop :=
  backgroundDBPoolsByName s' = backgroundDBPoolsByName s ∧
  length (heap s') = length (heap s) ∧
  (∀ b p, heap s !! b = Some p → ∃ p', heap s' !! b = Some p' ∧ keeps_binding p p') ∧
  ∃ evs, trace s' = trace s ++ evs ∧ quiet evs.

Definition framed {A} (m : M A) : Prop := ∀ s, wp m (λ _ s', frame s s') s.

Definition started (p : backgroundDBPool) : Prop :=
  is_Some (vlog p) ∧ is_Some (dropped p) ∧ is_Some (created p) ∧
  ∃ ch, readyDBs p = Some ch ∧ cap ch = initialPoolSize.

(** The first [n] values of a counter that starts at 0 and is incremented
    with [atomic.AddInt32(&b.nextID, 1)]. *)
Definition allocated (n : nat) : list Z :=
  (λ k, wrap32 (Z.of_nat k)) <$> seq 1 n.

(** What holds of the memory of a running process. *)
Record Inv (s : State) : Prop := {
  inv_registry : ∀ n b, backgroundDBPoolsByName s !! n = Some b → is_Some (heap s !! b);
  inv_started : ∀ b p, heap s !! b = Some p → started p;
  inv_created : ∀ n b, backgroundDBPoolsByName s !! n = Some b → EvNewPool n b ∈ trace s;
  inv_new_pool : ∀ n,
    count (is_new_pool n) (trace s) =
      match backgroundDBPoolsByName s !! n with Some _ => 1%nat | None => 0%nat end;
  inv_identities : ∀ b,
    identities b (trace s) = allocated (length (identities b (trace s)));
  inv_nextID : ∀ b,
    match heap s !! b with
    | Some p => nextID p = wrap32 (Z.of_nat (length (identities b (trace s))))
    | None => identities b (trace s) = []
    end;
}.

(** [wpe m Q E s]: from [s], [m] returns with [Q], or stops with an abort in
    [E]. *)
Definition wpe {A} (m : M A) (Q : A → State → Prop) (E : Abort → Prop) (s : State)
    : Prop :=
  match m s with
  | Ok a s' => Q a s'
  | Stop e _ => E e
  end.

(** Pool [b] has its logger and its two maps. *)
Definition equipped (b : loc) (s : State) : Prop :=
  ∃ p, heap s !! b = Some p ∧
    is_Some (vlog p) ∧ is_Some (dropped p) ∧ is_Some (created p).

(** A process that has a pool was configured: [start] returned. *)
Definition configured (s : State) : Prop :=
  ∀ n b, backgroundDBPoolsByName s !! n = Some b → label ≠ "" ∧ 0 ≤ initialPoolSize.

(** What one scheduler action does to the memory: it keeps the frame, or
    it allocates an identity (line 139), or it constructs and starts a pool
    (lines 67-68). *)
Inductive moves (s s' : State) : Prop :=
  | moves_frame :
      frame s s' → moves s s'
  | moves_alloc b p g :
      heap s !! b = Some p →
      s' = set_goroutines g
             (add_event (EvAddInt32 b (wrap32 (nextID p + 1)))
                (set_heap (<[b := with_nextID (wrap32 (nextID p + 1)) p]> (heap s)) s)) →
      moves s s'
  | moves_new_pool poolName sch :
      backgroundDBPoolsByName s !! poolName = None →
      label ≠ "" → 0 ≤ initialPoolSize →
      s' = after_go (length (heap s)) poolName
             (after_start (length (heap s)) poolName sch zero_pool
                (after_store_new poolName s)) →
      moves s s'.

(** The state a schedule leads to (the initial one if it does not get
    there). *)
Definition run_to (sched : list Action) (sy : Sys) : Sys :=
  match run sched sy with
  | Some (Continue sy') => sy'
  | _ => sy
  end.

(** The final state of a computation. *)
Definition final {A} (r : Res A) : State :=
  match r with
  | Ok _ s => s
  | Stop _ s => s
  end.

End Testdb.

Arguments Ok {BE A} a s.
Arguments Stop {BE A} e s.

(** ** A small database server to run the model on *)

Module Toy.

(** The server keeps the names of its databases and accepts at most [quota]
    of them.  [createdb] fails on an existing name or a full server; opening
    a database that does not exist fails. *)
Record Server := { dbs : list string; quota : nat }.

Definition toy_createdb (name : string) (w : Server) : option string * Server :=
  if bool_decide (name ∈ dbs w) then (Some "already exists", w)
  else if bool_decide (quota w ≤ length (dbs w))%nat then (Some "quota exceeded", w)
  else (None, {| dbs := dbs w ++ [name]; quota := quota w |}).

Definition toy_open (ds : string) (sch : list string) (w : Server)
    : (string + string) * Server :=
  if bool_decide (ds ∈ (λ n, "dbname=" +:+ n) <$> dbs w) then (inl ds, w)
  else (inr "does not exist", w).

Definition toy_ok (h : string) (w : Server) : option string * Server := (None, w).

(** Every address holds an equal schema: distinct objects, one structure. *)
#[export] Instance backend : Backend := {|
  Schema := list string;
  Handle := string;
  error := string;
  World := Server;
  schema_at := λ _, ["users"; "repos"];
  DataSource := λ h, h;
  createdb := toy_createdb;
  dbutil2_Open := toy_open;
  DropSchema := toy_ok;
  CreateSchema := toy_ok;
  TruncateTables := toy_ok;
|}.

#[export] Instance config : Config := {|
  dropSchema := true;
  createSchema := true;
  truncate := true;
  verbose := false;
  initialPoolSize := 2;
  label := "testdb";
  Getpid := 4242;
|}.

Definition server : Server := {| dbs := []; quota := 10 |}.
Definition full_server : Server := {| dbs := []; quota := 0 |}.


(** *** Processes of the small server, for the examples *)

(** Before the first call. *)
Definition sy_init : Sys := init server false.

(** After the first call for "pkgA", with the schema object at address 0. *)
Definition sy_pool : Sys := run_to [Call "pkgA" (Some 0%nat)] sy_init.

(** A second call, with a nil schema, whose goroutine then ran to the end. *)
Definition sy_called : Sys := run_to [Call "pkgA" None] sy_pool.
Definition sy_ready : Sys := run_to [Run 0; Run 0; Run 0] sy_called.
Definition sy_returned : Sys := run_to [Receive 1 FromBuffer] sy_ready.

(** Two goroutines of the pool allocated their identities. *)
Definition sy_two : Sys := run_to [Run 0; Run 1] sy_pool.

(** One goroutine allocated its identity. *)
Definition sy_allocated : Sys := run_to [Run 0] sy_pool.

(** The same on a server that accepts no database. *)
Definition sy_full : Sys :=
  run_to [Call "pkgA" (Some 0%nat); Run 0] (init full_server false).

(** The first call for "pkgB" passes a nil schema. *)
Definition sy_nil : Sys := run_to [Call "pkgB" None] sy_init.
Definition sy_nil_allocated : Sys := run_to [Run 0] sy_nil.


(** The pool of "pkgA". *)
Definition pool_A : backgroundDBPool := default zero_pool (heap (st sy_pool) !! 0%nat).


(** The pool of "pkgA" on the full server, after one allocation. *)
Definition pool_full : backgroundDBPool := default zero_pool (heap (st sy_full) !! 0%nat).

(** The name of the first database of "pkgA". *)
Definition name_1 : string := dbname_of "pkgA" label 1 Getpid.


(** On the full server: the pool of "pkgA", a second call, and the first
    goroutine after it allocated its identity. *)
Definition sy_full_pool : Sys := run_to [Call "pkgA" (Some 0%nat)] (init full_server false).
Definition sy_full_called : Sys := run_to [Call "pkgA" None] sy_full_pool.
Definition sy_full_allocated : Sys := run_to [Run 0] sy_full_called.

End Toy.

(** * Proofs *)

Section Proofs.
Context `{BE : Backend} `{CF : Config}.

Lemma count_app {A} (f : A → bool) (l1 l2 : list A) :
  count f (l1 ++ l2) = (count f l1 + count f l2)%nat.
Proof. induction l1 as [|x l1 IH]; simpl; [done|]. rewrite IH. lia. Qed.

(** ** Projections of updated states *)

Lemma backgroundDBPoolsByName_set_registry r (s : State) : backgroundDBPoolsByName (set_registry r s) = r.
Proof. done. Qed.
Lemma heap_set_registry r (s : State) : heap (set_registry r s) = heap s.
Proof. done. Qed.
Lemma CreateUnloggedTables_set_registry r (s : State) : CreateUnloggedTables (set_registry r s) = CreateUnloggedTables s.
Proof. done. Qed.
Lemma goroutines_set_registry r (s : State) : goroutines (set_registry r s) = goroutines s.
Proof. done. Qed.
Lemma world_set_registry r (s : State) : world (set_registry r s) = world s.
Proof. done. Qed.
Lemma trace_set_registry r (s : State) : trace (set_registry r s) = trace s.
Proof. done. Qed.
Lemma backgroundDBPoolsByName_set_heap h (s : State) : backgroundDBPoolsByName (set_heap h s) = backgroundDBPoolsByName s.
Proof. done. Qed.
Lemma heap_set_heap h (s : State) : heap (set_heap h s) = h.
Proof. done. Qed.
Lemma CreateUnloggedTables_set_heap h (s : State) : CreateUnloggedTables (set_heap h s) = CreateUnloggedTables s.
Proof. done. Qed.
Lemma goroutines_set_heap h (s : State) : goroutines (set_heap h s) = goroutines s.
Proof. done. Qed.
Lemma world_set_heap h (s : State) : world (set_heap h s) = world s.
Proof. done. Qed.
Lemma trace_set_heap h (s : State) : trace (set_heap h s) = trace s.
Proof. done. Qed.
Lemma backgroundDBPoolsByName_set_CreateUnloggedTables v (s : State) : backgroundDBPoolsByName (set_CreateUnloggedTables v s) = backgroundDBPoolsByName s.
Proof. done. Qed.
Lemma heap_set_CreateUnloggedTables v (s : State) : heap (set_CreateUnloggedTables v s) = heap s.
Proof. done. Qed.
Lemma CreateUnloggedTables_set_CreateUnloggedTables v (s : State) : CreateUnloggedTables (set_CreateUnloggedTables v s) = v.
Proof. done. Qed.
Lemma goroutines_set_CreateUnloggedTables v (s : State) : goroutines (set_CreateUnloggedTables v s) = goroutines s.
Proof. done. Qed.
Lemma world_set_CreateUnloggedTables v (s : State) : world (set_CreateUnloggedTables v s) = world s.
Proof. done. Qed.
Lemma trace_set_CreateUnloggedTables v (s : State) : trace (set_CreateUnloggedTables v s) = trace s.
Proof. done. Qed.
Lemma backgroundDBPoolsByName_set_goroutines g (s : State) : backgroundDBPoolsByName (set_goroutines g s) = backgroundDBPoolsByName s.
Proof. done. Qed.
Lemma heap_set_goroutines g (s : State) : heap (set_goroutines g s) = heap s.
Proof. done. Qed.
Lemma CreateUnloggedTables_set_goroutines g (s : State) : CreateUnloggedTables (set_goroutines g s) = CreateUnloggedTables s.
Proof. done. Qed.
Lemma goroutines_set_goroutines g (s : State) : goroutines (set_goroutines g s) = g.
Proof. done. Qed.
Lemma world_set_goroutines g (s : State) : world (set_goroutines g s) = world s.
Proof. done. Qed.
Lemma trace_set_goroutines g (s : State) : trace (set_goroutines g s) = trace s.
Proof. done. Qed.
Lemma backgroundDBPoolsByName_set_world w (s : State) : backgroundDBPoolsByName (set_world w s) = backgroundDBPoolsByName s.
Proof. done. Qed.
Lemma heap_set_world w (s : State) : heap (set_world w s) = heap s.
Proof. done. Qed.
Lemma CreateUnloggedTables_set_world w (s : State) : CreateUnloggedTables (set_world w s) = CreateUnloggedTables s.
Proof. done. Qed.
Lemma goroutines_set_world w (s : State) : goroutines (set_world w s) = goroutines s.
Proof. done. Qed.
Lemma world_set_world w (s : State) : world (set_world w s) = w.
Proof. done. Qed.
Lemma trace_set_world w (s : State) : trace (set_world w s) = trace s.
Proof. done. Qed.
Lemma backgroundDBPoolsByName_add_event e (s : State) : backgroundDBPoolsByName (add_event e s) = backgroundDBPoolsByName s.
Proof. done. Qed.
Lemma heap_add_event e (s : State) : heap (add_event e s) = heap s.
Proof. done. Qed.
Lemma CreateUnloggedTables_add_event e (s : State) : CreateUnloggedTables (add_event e s) = CreateUnloggedTables s.
Proof. done. Qed.
Lemma goroutines_add_event e (s : State) : goroutines (add_event e s) = goroutines s.
Proof. done. Qed.
Lemma world_add_event e (s : State) : world (add_event e s) = world s.
Proof. done. Qed.
Lemma trace_add_event e (s : State) : trace (add_event e s) = trace s ++ [e].
Proof. done. Qed.

Create Rewrite HintDb st.
#[local] Hint Rewrite
  @backgroundDBPoolsByName_set_registry @heap_set_registry @CreateUnloggedTables_set_registry
  @goroutines_set_registry @world_set_registry @trace_set_registry
  @backgroundDBPoolsByName_set_heap @heap_set_heap @CreateUnloggedTables_set_heap
  @goroutines_set_heap @world_set_heap @trace_set_heap
  @backgroundDBPoolsByName_set_CreateUnloggedTables @heap_set_CreateUnloggedTables @CreateUnloggedTables_set_CreateUnloggedTables
  @goroutines_set_CreateUnloggedTables @world_set_CreateUnloggedTables @trace_set_CreateUnloggedTables
  @backgroundDBPoolsByName_set_goroutines @heap_set_goroutines @CreateUnloggedTables_set_goroutines
  @goroutines_set_goroutines @world_set_goroutines @trace_set_goroutines
  @backgroundDBPoolsByName_set_world @heap_set_world @CreateUnloggedTables_set_world
  @goroutines_set_world @world_set_world @trace_set_world
  @backgroundDBPoolsByName_add_event @heap_add_event @CreateUnloggedTables_add_event
  @goroutines_add_event @world_add_event @trace_add_event : st.

#[local] Arguments set_registry : simpl never.
#[local] Arguments set_heap : simpl never.
#[local] Arguments set_CreateUnloggedTables : simpl never.
#[local] Arguments set_goroutines : simpl never.
#[local] Arguments set_world : simpl never.
#[local] Arguments add_event : simpl never.

(** ** Reasoning about monadic code *)

Lemma wp_elim {A} (m : M A) Q s a s' : wp m Q s → m s = Ok a s' → Q a s'.
Proof. unfold wp. intros H E. by rewrite E in H. Qed.

Lemma wp_intro {A} (m : M A) (Q : A → State → Prop) s :
  (∀ a s', m s = Ok a s' → Q a s') → wp m Q s.
Proof. unfold wp. destruct (m s); auto. Qed.

Lemma wp_mono {A} (m : M A) (Q Q' : A → State → Prop) s :
  wp m Q s → (∀ a s', Q a s' → Q' a s') → wp m Q' s.
Proof. unfold wp. destruct (m s); auto. Qed.

Lemma wp_bind {A B} (m : M A) (f : A → M B) Q s :
  wp m (λ a, wp (f a) Q) s → wp (m ≫= f) Q s.
Proof. unfold wp, mbind, M_bind. by destruct (m s). Qed.

Lemma wp_ret {A} (a : A) (Q : A → State → Prop) s : Q a s → wp (mret a) Q s.
Proof. done. Qed.

Lemma wp_fatal {A} f (Q : A → State → Prop) s : wp (fatal f) Q s.
Proof. done. Qed.

Lemma wp_panic {A} p (Q : A → State → Prop) s : wp (panic p) Q s.
Proof. done. Qed.

Lemma wp_when (c : bool) m Q s :
  (c = true → wp m Q s) → (c = false → Q tt s) → wp (when c m) Q s.
Proof. intros H1 H2. destruct c; [exact (H1 eq_refl) | exact (H2 eq_refl)]. Qed.

Lemma wp_emit e (Q : unit → State → Prop) s :
  (∀ s', emit e s = Ok tt s' → Q tt s') → wp (emit e) Q s.
Proof. intros H. apply wp_intro. by intros [] s' ?; apply H. Qed.

Lemma wp_get_pool b (Q : backgroundDBPool → State → Prop) s :
  (∀ p, heap s !! b = Some p → Q p s) → wp (get_pool b) Q s.
Proof. unfold wp, get_pool. destruct (heap s !! b); auto. Qed.

Lemma wp_modify_state f (Q : unit → State → Prop) s :
  Q tt (f s) → wp (modify_state f) Q s.
Proof. done. Qed.

Lemma wp_modify_pool b f (Q : unit → State → Prop) s :
  (∀ p, heap s !! b = Some p → Q tt (set_heap (<[b := f p]> (heap s)) s)) →
  wp (modify_pool b f) Q s.
Proof. intros H. apply wp_bind, wp_get_pool. intros p Hp. by apply H. Qed.

Lemma wp_external {R} (op : World → R * World) (Q : R → State → Prop) s :
  (∀ r w, op (world s) = (r, w) → Q r (set_world w s)) → wp (external op) Q s.
Proof. unfold wp, external. destruct (op (world s)); auto. Qed.

Lemma wp_vlog_Printf b msg (Q : unit → State → Prop) s :
  (∀ p l, heap s !! b = Some p → vlog p = Some l →
     wp (if l is StderrLogger then emit (EvLog msg) else mret tt) Q s) →
  wp (vlog_Printf b msg) Q s.
Proof.
  intros H. apply wp_bind, wp_get_pool. intros p Hp.
  destruct (vlog p) as [l|] eqn:Hl; [|done].
  specialize (H p l Hp Hl). by destruct l.
Qed.

Lemma wp_map_set_true m id (Q : gmap Z bool → State → Prop) s :
  (∀ m0, m = Some m0 → Q (<[id := true]> m0) s) → wp (map_set_true m id) Q s.
Proof. destruct m; simpl; [|done]. intros H. by apply H. Qed.

Lemma lookup_insert_same {A} (l : list A) i x y :
  l !! i = Some y → <[i := x]> l !! i = Some x.
Proof. intros H. apply list_lookup_insert_eq. by eapply lookup_lt_Some. Qed.

(** Normalise what is known about the pool at [b]. *)
Ltac heap_simpl :=
  repeat match goal with
  | H : context [heap (_ _ _)] |- _ => progress autorewrite with st in H
  | H : <[?b := ?x]> ?l !! ?b = Some ?y, H' : ?l !! ?b = Some _ |- _ =>
      rewrite (lookup_insert_same l b x _ H') in H; injection H as <-
  | H1 : ?l !! ?b = Some ?x, H2 : ?l !! ?b = Some ?y |- _ =>
      rewrite H1 in H2; injection H2 as <-
  end.

Ltac wp_step :=
  lazymatch goal with
  | |- wp (mbind _ _) _ _ => apply wp_bind
  | |- wp (mret _) _ _ => apply wp_ret
  | |- wp (fatal _) _ _ => apply wp_fatal
  | |- wp (panic _) _ _ => apply wp_panic
  | |- wp (when _ _) _ _ => apply wp_when; intros ?
  | |- wp (emit _) _ _ => apply wp_modify_state
  | |- wp (get_pool _) _ _ => apply wp_get_pool; intros ? ?; heap_simpl
  | |- wp (modify_pool _ _) _ _ => apply wp_modify_pool; intros ? ?; heap_simpl
  | |- wp (modify_state _) _ _ => apply wp_modify_state
  | |- wp (external _) _ _ => apply wp_external; intros ? ? ?
  | |- wp (vlog_Printf _ _) _ _ => apply wp_vlog_Printf; intros ? [] ? ?; heap_simpl
  | |- wp (map_set_true _ _) _ _ => apply wp_map_set_true; intros ? ?
  | |- wp (match ?x with _ => _ end) _ _ => destruct x eqn:?
  end.

(** Close a goal about the final state of a block of [prepareDBs]. *)
Ltac tally :=
  autorewrite with st;
  eexists; split; [eapply lookup_insert_same; eassumption|];
  rewrite ?count_app; simpl;
  rewrite ?lookup_insert_eq; repeat split; try done; lia.

(** ** prepareDBs *)







(** ** Frames *)

Lemma identities_app b (l1 l2 : list Event) :
  identities b (l1 ++ l2) = identities b l1 ++ identities b l2.
Proof.
  induction l1 as [|e l1 IH]; simpl; [done|].
  destruct e; try done. case_bool_decide; simpl; by rewrite IH.
Qed.

Lemma keeps_binding_refl p : keeps_binding p p.
Proof. repeat split; eauto. Qed.

Lemma keeps_binding_trans p1 p2 p3 :
  keeps_binding p1 p2 → keeps_binding p2 p3 → keeps_binding p1 p3.
Proof.
  intros (? & ? & ? & ? & ? & Hc1) (? & ? & ? & ? & ? & Hc2).
  repeat split; try congruence; eauto.
  intros ch Hch. destruct (Hc1 ch Hch) as (ch' & Hch' & ?).
  destruct (Hc2 ch' Hch') as (ch'' & ? & ?). exists ch''. split; [done|congruence].
Qed.

Lemma quiet_nil : quiet [].
Proof. done. Qed.

Lemma quiet_app evs1 evs2 : quiet evs1 → quiet evs2 → quiet (evs1 ++ evs2).
Proof.
  intros [H1 H1'] [H2 H2']. split; intros x.
  - by rewrite count_app, H1, H2.
  - by rewrite identities_app, H1', H2'.
Qed.

Lemma frame_refl s : frame s s.
Proof.
  repeat split; try done.
  - intros b p Hp. exists p. auto using keeps_binding_refl.
  - exists []. by rewrite app_nil_r.
Qed.

Lemma frame_trans s1 s2 s3 : frame s1 s2 → frame s2 s3 → frame s1 s3.
Proof.
  intros (Hr1 & Hl1 & Hp1 & evs1 & Ht1 & Hq1) (Hr2 & Hl2 & Hp2 & evs2 & Ht2 & Hq2).
  repeat split; try congruence.
  - intros b p Hp. destruct (Hp1 b p Hp) as (p' & Hp' & ?).
    destruct (Hp2 b p' Hp') as (p'' & ? & ?). exists p''.
    eauto using keeps_binding_trans.
  - exists (evs1 ++ evs2). rewrite Ht2, Ht1, app_assoc. auto using quiet_app.
Qed.

Lemma frame_add_event e s :
  quiet [e] → frame s (add_event e s).
Proof.
  intros Hq. repeat split; autorewrite with st; try done.
  - intros b p Hp. exists p. auto using keeps_binding_refl.
  - by exists [e].
Qed.

Lemma frame_set_world w s : frame s (set_world w s).
Proof.
  repeat split; autorewrite with st; try done.
  - intros b p Hp. exists p. auto using keeps_binding_refl.
  - exists []. by rewrite app_nil_r.
Qed.

Lemma frame_set_goroutines g s : frame s (set_goroutines g s).
Proof.
  repeat split; autorewrite with st; try done.
  - intros b p Hp. exists p. auto using keeps_binding_refl.
  - exists []. by rewrite app_nil_r.
Qed.

Lemma frame_set_pool b p p' s :
  heap s !! b = Some p → keeps_binding p p' →
  frame s (set_heap (<[b := p']> (heap s)) s).
Proof.
  intros Hp Hk. repeat split; autorewrite with st; try done.
  - by rewrite length_insert.
  - intros b0 p0 Hp0. destruct (decide (b0 = b)) as [->|Hne].
    + exists p'. split; [by eapply lookup_insert_same|congruence].
    + exists p0. rewrite list_lookup_insert_ne by done. auto using keeps_binding_refl.
  - exists []. by rewrite app_nil_r.
Qed.

Lemma framed_ret {A} (a : A) : framed (mret a).
Proof. intros s. apply frame_refl. Qed.

Lemma framed_fatal {A} f : framed (fatal (A := A) f).
Proof. by intros s. Qed.

Lemma framed_panic {A} x : framed (panic (A := A) x).
Proof. by intros s. Qed.

Lemma framed_bind {A B} (m : M A) (f : A → M B) :
  framed m → (∀ a, framed (f a)) → framed (m ≫= f).
Proof.
  intros Hm Hf s. apply wp_bind. eapply wp_mono; [apply Hm|].
  intros a s1 H1. eapply wp_mono; [apply Hf|].
  intros c s2 H2. exact (frame_trans _ _ _ H1 H2).
Qed.

Lemma framed_when c m : framed m → framed (when c m).
Proof. intros Hm. destruct c; [done|apply framed_ret]. Qed.

Lemma framed_emit e : quiet [e] → framed (emit e).
Proof. intros Hq s. by apply frame_add_event. Qed.

Lemma framed_external {R} (op : World → R * World) : framed (external op).
Proof. intros s. apply wp_external. intros r w _. apply frame_set_world. Qed.

Lemma framed_get_pool b : framed (get_pool b).
Proof. intros s. apply wp_get_pool. intros p _. apply frame_refl. Qed.

Lemma framed_modify_pool b f :
  (∀ p, keeps_binding p (f p)) → framed (modify_pool b f).
Proof. intros Hf s. apply wp_modify_pool. intros p Hp. by eapply frame_set_pool. Qed.

Lemma framed_vlog_Printf b msg : framed (vlog_Printf b msg).
Proof.
  apply framed_bind; [apply framed_get_pool|]. intros p.
  destruct (vlog p) as [[]|]; [by apply framed_emit|apply framed_ret|apply framed_panic].
Qed.

Lemma framed_map_set_true m id : framed (map_set_true m id).
Proof. destruct m; [apply framed_ret|apply framed_panic]. Qed.

Lemma framed_go b poolName : framed (go_prepareNewDB b poolName).
Proof.
  apply framed_bind; [|intros _; by apply framed_emit].
  intros s. apply frame_set_goroutines.
Qed.

Create HintDb framed.
#[local] Hint Resolve framed_ret framed_fatal framed_panic framed_when framed_external
  framed_get_pool framed_vlog_Printf framed_map_set_true framed_go : framed.

Ltac framed :=
  repeat first
    [ apply framed_modify_pool; intros ?; repeat split; simpl; eauto; fail
    | apply framed_emit; done
    | progress eauto with framed
    | apply framed_bind; [|intros ?]
    | match goal with |- framed (match ?x with _ => _ end) => destruct x end ].

Lemma framed_drop_schema b id mdb : framed (drop_schema b id mdb).
Proof. unfold drop_schema. framed. Qed.

Lemma framed_create_schema b id mdb : framed (create_schema b id mdb).
Proof. unfold create_schema. framed. Qed.

Lemma framed_truncate_tables b id mdb : framed (truncate_tables b id mdb).
Proof. unfold truncate_tables. framed. Qed.

#[local] Hint Resolve framed_drop_schema framed_create_schema framed_truncate_tables : framed.

Lemma framed_prepareDBs b id mdb d c t : framed (prepareDBs b id mdb d c t).
Proof. unfold prepareDBs. framed. Qed.

#[local] Hint Resolve framed_prepareDBs : framed.

Lemma framed_deref_schema x : framed (deref_schema x).
Proof. destruct x; [apply framed_ret|apply framed_panic]. Qed.

#[local] Hint Resolve framed_deref_schema : framed.

Lemma framed_provision b poolName id : framed (provision b poolName id).
Proof. unfold provision. framed. Qed.

(** ** Running monadic code *)

Lemma run_bind {A B} (m : M A) (f : A → M B) s a s1 :
  m s = Ok a s1 → (m ≫= f) s = f a s1.
Proof. unfold mbind, M_bind. by intros ->. Qed.

Lemma run_bind_stop {A B} (m : M A) (f : A → M B) s e s1 :
  m s = Stop e s1 → (m ≫= f) s = Stop e s1.
Proof. unfold mbind, M_bind. by intros ->. Qed.

Lemma run_get_pool b p s : heap s !! b = Some p → get_pool b s = Ok p s.
Proof. unfold get_pool. by intros ->. Qed.

Lemma run_modify_pool b f p s :
  heap s !! b = Some p →
  modify_pool b f s = Ok tt (set_heap (<[b := f p]> (heap s)) s).
Proof. intros Hp. unfold modify_pool. by rewrite (run_bind _ _ _ _ _ (run_get_pool _ _ _ Hp)). Qed.

Lemma state_eq (s1 s2 : State) :
  backgroundDBPoolsByName s1 = backgroundDBPoolsByName s2 →
  heap s1 = heap s2 →
  CreateUnloggedTables s1 = CreateUnloggedTables s2 →
  goroutines s1 = goroutines s2 →
  world s1 = world s2 →
  trace s1 = trace s2 →
  s1 = s2.
Proof. destruct s1, s2; simpl; by intros -> -> -> -> -> ->. Qed.

Lemma add_events_app evs1 evs2 s :
  add_events (evs1 ++ evs2) s = add_events evs2 (add_events evs1 s).
Proof. unfold add_events. by rewrite foldl_app. Qed.

Lemma trace_add_events evs s : trace (add_events evs s) = trace s ++ evs.
Proof.
  revert s. induction evs as [|e evs IH]; intros s; simpl; [by rewrite app_nil_r|].
  rewrite IH. autorewrite with st. by rewrite <- app_assoc.
Qed.

Lemma heap_add_events evs s : heap (add_events evs s) = heap s.
Proof. revert s. induction evs as [|e evs IH]; intros s; simpl; [done|]. by rewrite IH. Qed.

Lemma backgroundDBPoolsByName_add_events evs s :
  backgroundDBPoolsByName (add_events evs s) = backgroundDBPoolsByName s.
Proof. revert s. induction evs as [|e evs IH]; intros s; simpl; [done|]. by rewrite IH. Qed.

Lemma goroutines_add_events evs s : goroutines (add_events evs s) = goroutines s.
Proof. revert s. induction evs as [|e evs IH]; intros s; simpl; [done|]. by rewrite IH. Qed.

Lemma world_add_events evs s : world (add_events evs s) = world s.
Proof. revert s. induction evs as [|e evs IH]; intros s; simpl; [done|]. by rewrite IH. Qed.

Lemma CreateUnloggedTables_add_events evs s :
  CreateUnloggedTables (add_events evs s) = CreateUnloggedTables s.
Proof. revert s. induction evs as [|e evs IH]; intros s; simpl; [done|]. by rewrite IH. Qed.

#[local] Hint Rewrite trace_add_events heap_add_events backgroundDBPoolsByName_add_events
  goroutines_add_events world_add_events CreateUnloggedTables_add_events : st.

Lemma replicate_snoc {A} (n : nat) (x : A) : replicate n x ++ [x] = x :: replicate n x.
Proof. induction n as [|n IH]; simpl; [done|]. by rewrite IH. Qed.

Lemma go_run b poolName s : go_prepareNewDB b poolName s = Ok tt (after_go b poolName s).
Proof. done. Qed.

Lemma repeat_go_run n b poolName s :
  repeatM n (go_prepareNewDB b poolName) s =
    Ok tt (add_events (replicate n (EvGo b poolName))
             (set_goroutines (goroutines s ++ replicate n (Spawned b poolName)) s)).
Proof.
  revert s. induction n as [|n IH]; intros s.
  - simpl. f_equal. apply state_eq; autorewrite with st; by rewrite ?app_nil_r.
  - cbn [repeatM]. rewrite (run_bind _ _ _ _ _ (go_run b poolName s)), IH.
    f_equal. unfold after_go. apply state_eq; autorewrite with st; try done.
    + by rewrite <- app_assoc.
    + by rewrite <- app_assoc.
Qed.

Lemma AddInt32_run b delta p s :
  heap s !! b = Some p →
  AddInt32 b delta s =
    Ok (wrap32 (nextID p + delta))
       (add_event (EvAddInt32 b (wrap32 (nextID p + delta)))
          (set_heap (<[b := with_nextID (wrap32 (nextID p + delta)) p]> (heap s)) s)).
Proof.
  intros Hp. unfold AddInt32.
  rewrite (run_bind _ _ _ _ _ (run_get_pool _ _ _ Hp)).
  by rewrite (run_bind _ _ _ _ _ (run_modify_pool _ _ _ _ Hp)).
Qed.

(** The pool at [b] after some updates of it. *)
Ltac pool_at :=
  autorewrite with st;
  first [ eassumption | eapply lookup_insert_same; pool_at ].

Ltac run_pool :=
  erewrite run_bind by (apply run_modify_pool; pool_at).

Lemma start_run b poolName sch p s :
  heap s !! b = Some p → label ≠ "" → 0 ≤ initialPoolSize →
  start b poolName sch s = Ok tt (after_start b poolName sch p s).
Proof.
  intros Hp Hl Hn. unfold start.
  run_pool.
  rewrite bool_decide_eq_false_2 by done. cbn [when].
  erewrite run_bind by reflexivity.
  run_pool.
  erewrite run_bind by reflexivity.
  run_pool. run_pool.
  unfold makechan. rewrite bool_decide_eq_false_2 by lia.
  erewrite run_bind by reflexivity.
  run_pool.
  rewrite repeat_go_run. f_equal. unfold after_start.
  apply state_eq; autorewrite with st; try done.
  rewrite !list_insert_insert_eq. done.
Qed.

Lemma start_no_label b poolName sch p s :
  heap s !! b = Some p → label = "" →
  ∃ s', start b poolName sch s = Stop (LogFatal ConfigError) s'.
Proof.
  intros Hp Hl. unfold start. run_pool.
  rewrite bool_decide_eq_true_2 by done. cbn [when].
  eexists. by erewrite run_bind_stop by reflexivity.
Qed.

Lemma start_negative_size b poolName sch p s :
  heap s !! b = Some p → label ≠ "" → initialPoolSize < 0 →
  ∃ s', start b poolName sch s = Stop (GoPanic MakechanSize) s'.
Proof.
  intros Hp Hl Hn. unfold start. run_pool.
  rewrite bool_decide_eq_false_2 by done. cbn [when].
  erewrite run_bind by reflexivity. run_pool.
  erewrite run_bind by reflexivity. run_pool. run_pool.
  unfold makechan. rewrite bool_decide_eq_true_2 by lia.
  eexists. by erewrite run_bind_stop by reflexivity.
Qed.

(** ** pristineDBs, lines 64-81 *)

Lemma lookup_or_create_existing poolName sch b s :
  backgroundDBPoolsByName s !! poolName = Some b →
  lookup_or_create poolName sch s = Ok (Some b) s.
Proof.
  intros Hb. unfold lookup_or_create, registry_lookup, mbind, M_bind.
  rewrite Hb. cbn. by rewrite Hb.
Qed.

Lemma store_new_lookup poolName s :
  backgroundDBPoolsByName (after_store_new poolName s) !! poolName = Some (length (heap s)).
Proof. unfold after_store_new. autorewrite with st. apply lookup_insert_eq. Qed.

Lemma store_new_pool poolName s :
  heap (after_store_new poolName s) !! length (heap s) = Some zero_pool.
Proof.
  unfold after_store_new. autorewrite with st.
  rewrite lookup_app_r by done. by rewrite Nat.sub_diag.
Qed.

Lemma lookup_or_create_start poolName sch s :
  backgroundDBPoolsByName s !! poolName = None →
  lookup_or_create poolName sch s =
    (start (length (heap s)) poolName sch;; registry_lookup poolName)
      (after_store_new poolName s).
Proof.
  intros Hb. unfold lookup_or_create.
  erewrite run_bind by reflexivity. rewrite Hb.
  unfold mbind at 1, M_bind at 1. unfold mbind at 1, M_bind at 1.
  change (registry_store_new poolName s) with (Ok tt (after_store_new poolName s)).
  cbv beta iota.
  rewrite (run_bind (registry_lookup poolName) _ _
             (backgroundDBPoolsByName (after_store_new poolName s) !! poolName)
             (after_store_new poolName s) eq_refl).
  by rewrite store_new_lookup.
Qed.

Lemma lookup_or_create_new poolName sch s :
  backgroundDBPoolsByName s !! poolName = None →
  label ≠ "" → 0 ≤ initialPoolSize →
  lookup_or_create poolName sch s =
    Ok (Some (length (heap s)))
       (after_start (length (heap s)) poolName sch zero_pool (after_store_new poolName s)).
Proof.
  intros Hb Hl Hn. rewrite lookup_or_create_start by done.
  erewrite run_bind by (apply start_run; [apply store_new_pool|done|done]).
  unfold registry_lookup. f_equal.
  unfold after_start. autorewrite with st. apply store_new_lookup.
Qed.

Lemma enter_existing poolName sch b p s :
  backgroundDBPoolsByName s !! poolName = Some b →
  heap s !! b = Some p →
  pristineDBs_enter poolName sch s =
    if bool_decide (sch ≠ None ∧ schema p ≠ sch)
    then Stop (LogFatal (SchemaMismatch poolName)) s
    else Ok b (after_go b poolName s).
Proof.
  intros Hb Hp. unfold pristineDBs_enter.
  erewrite run_bind by (by apply lookup_or_create_existing). cbv beta iota.
  erewrite run_bind by (by apply run_get_pool).
  case_bool_decide; cbn [when].
  - by erewrite run_bind_stop by reflexivity.
  - erewrite run_bind by reflexivity. by erewrite run_bind by apply go_run.
Qed.

Lemma pool_after_start b poolName sch p s :
  heap s !! b = Some p →
  heap (after_start b poolName sch p s) !! b = Some (started_pool sch p).
Proof. intros Hp. unfold after_start. autorewrite with st. by eapply lookup_insert_same. Qed.

Lemma enter_new poolName sch s :
  backgroundDBPoolsByName s !! poolName = None →
  label ≠ "" → 0 ≤ initialPoolSize →
  pristineDBs_enter poolName sch s =
    Ok (length (heap s))
       (after_go (length (heap s)) poolName
          (after_start (length (heap s)) poolName sch zero_pool
             (after_store_new poolName s))).
Proof.
  intros Hb Hl Hn. unfold pristineDBs_enter.
  erewrite run_bind by (by apply lookup_or_create_new). cbv beta iota.
  erewrite run_bind by (apply run_get_pool, pool_after_start, store_new_pool).
  rewrite bool_decide_eq_false_2 by (by intros [_ ?]). cbn [when].
  erewrite run_bind by reflexivity. by erewrite run_bind by apply go_run.
Qed.

Lemma enter_new_stops poolName sch s :
  backgroundDBPoolsByName s !! poolName = None →
  label = "" ∨ initialPoolSize < 0 →
  ∃ e s', pristineDBs_enter poolName sch s = Stop e s' ∧
    (e = LogFatal ConfigError ∨ e = GoPanic MakechanSize).
Proof.
  intros Hb Hbad.
  assert (∃ e s', start (length (heap s)) poolName sch (after_store_new poolName s) = Stop e s'
                  ∧ (e = LogFatal ConfigError ∨ e = GoPanic MakechanSize))
    as (e & s' & Hs' & He).
  { destruct (decide (label = "")) as [Hl|Hl].
    - destruct (start_no_label (length (heap s)) poolName sch zero_pool
                  (after_store_new poolName s)) as [s' Hs']; [apply store_new_pool|done|].
      eauto 6.
    - destruct Hbad as [?|Hn]; [done|].
      destruct (start_negative_size (length (heap s)) poolName sch zero_pool
                  (after_store_new poolName s)) as [s' Hs']; [apply store_new_pool|done..|].
      eauto 6. }
  exists e, s'. split; [|done]. unfold pristineDBs_enter.
  apply run_bind_stop. rewrite lookup_or_create_start by done.
  by apply run_bind_stop.
Qed.

(** ** The channel *)

Lemma keeps_binding_readyDBs p ch ch' :
  readyDBs p = Some ch → cap ch' = cap ch →
  keeps_binding p (with_readyDBs (Some ch') p).
Proof.
  intros Hch Hcap. repeat split; simpl; eauto.
  intros ch0 Hch0. exists ch'. split; [done|]. congruence.
Qed.

Lemma quiet_send b dbh : quiet [EvSend b dbh].
Proof. done. Qed.

Lemma quiet_recv b dbh : quiet [EvRecv b dbh].
Proof. done. Qed.

Lemma send_frame b dbh s s' : send b dbh s = Some s' → frame s s'.
Proof.
  unfold send. intros H.
  destruct (heap s !! b) as [p|] eqn:Hp; [|done]. simpl in H.
  destruct (readyDBs p) as [ch|] eqn:Hch; [|done]. simpl in H.
  case_bool_decide; [|done]. injection H as <-.
  eapply frame_trans; [|apply frame_add_event, quiet_send].
  eapply frame_set_pool; [done|]. by eapply keeps_binding_readyDBs.
Qed.

Lemma take_frame b src dbh s s' : take b src s = Some (dbh, s') → frame s s'.
Proof.
  unfold take. intros H.
  destruct (heap s !! b) as [p|] eqn:Hp; [|done]. simpl in H.
  destruct (readyDBs p) as [ch|] eqn:Hch; [|done]. simpl in H.
  destruct src as [|g].
  - destruct (buf ch) as [|x rest]; [done|]. injection H as <- <-.
    eapply frame_set_pool; [done|]. by eapply keeps_binding_readyDBs.
  - destruct (goroutines s !! g) as [[| |b' dbh'|]|]; try done.
    case_bool_decide; [|done].
    destruct (buf ch ++ [dbh']) as [|x rest]; [done|]. injection H as <- <-.
    eapply frame_trans; [|apply frame_add_event, quiet_send].
    eapply frame_trans; [|apply frame_set_goroutines].
    eapply frame_set_pool; [done|]. by eapply keeps_binding_readyDBs.
Qed.

Lemma select_receive_frame b src dbh s s' :
  select_receive b src s = Some (Ok dbh s') → frame s s'.
Proof.
  unfold select_receive. intros H.
  destruct (take b src s) as [[dbh0 s0]|] eqn:Htake; [|done]. simpl in H.
  injection H as H. eapply frame_trans; [by eapply take_frame|].
  assert (framed (emit (EvRecv b dbh0);;
                  when verbose (vlog_Printf b (GotNewDBs (DataSource dbh0)));;
                  mret dbh0)) as Hf by framed.
  exact (wp_elim _ _ _ _ _ (Hf s0) H).
Qed.

(** In a pool that was started, the logging of line 87 does not panic. *)
Lemma select_receive_stop b src e s s' :
  (∀ b p, heap s !! b = Some p → is_Some (vlog p)) →
  select_receive b src s = Some (Stop e s') → False.
Proof.
  unfold select_receive. intros Hv H.
  destruct (take b src s) as [[dbh0 s0]|] eqn:Htake; [|done]. simpl in H.
  injection H as H.
  assert (is_Some (heap s !! b)) as [p Hp].
  { unfold take in Htake. destruct (heap s !! b); [eauto|done]. }
  destruct (take_frame _ _ _ _ _ Htake) as (_ & _ & Hpools & _).
  destruct (Hpools b p Hp) as (p' & Hp' & _ & Hvlog & _).
  destruct (Hv b p Hp) as [l Hl]. rewrite Hl in Hvlog.
  erewrite run_bind in H by reflexivity.
  destruct verbose; cbn [when] in H.
  - unfold vlog_Printf, mbind, M_bind in H.
    rewrite (run_get_pool b p') in H by (autorewrite with st; exact Hp').
    rewrite Hvlog in H. by destruct l.
  - done.
Qed.

(** ** Scheduler actions *)

Lemma frame_after_go b poolName s : frame s (after_go b poolName s).
Proof.
  unfold after_go. eapply frame_trans; [apply frame_set_goroutines|].
  by apply frame_add_event.
Qed.

Lemma advance_continue g (m : M Task) sy sy' :
  advance g m sy = Continue sy' →
  ∃ t s', m (st sy) = Ok t s' ∧ callers sy' = callers sy ∧
    st sy' = set_goroutines (<[g := t]> (goroutines s')) s'.
Proof.
  unfold advance. destruct (m (st sy)) as [t s'|]; [|done].
  intros [= <-]. eauto.
Qed.

Lemma step_moves sy sy' : step sy sy' → moves (st sy) (st sy').
Proof.
  intros [a Ha]. destruct a as [poolName sch|w src|w|g]; simpl in Ha.
  - (* Call *)
    destruct (backgroundDBPoolsByName (st sy) !! poolName) as [b|] eqn:Hb.
    + destruct (heap (st sy) !! b) as [p|] eqn:Hp.
      * rewrite (enter_existing _ _ _ _ _ Hb Hp) in Ha.
        case_bool_decide; [done|]. injection Ha as <-.
        apply moves_frame, frame_after_go.
      * unfold pristineDBs_enter in Ha.
        erewrite run_bind in Ha by (by apply lookup_or_create_existing).
        cbv beta iota in Ha. unfold get_pool, mbind, M_bind in Ha.
        by rewrite Hp in Ha.
    + destruct (decide (label = "")) as [Hl|Hl].
      { destruct (enter_new_stops poolName sch (st sy) Hb) as (? & ? & Hs & _); [by left|].
        by rewrite Hs in Ha. }
      destruct (decide (initialPoolSize < 0)) as [Hn|Hn].
      { destruct (enter_new_stops poolName sch (st sy) Hb) as (? & ? & Hs & _); [by right|].
        by rewrite Hs in Ha. }
      rewrite enter_new in Ha by (done || lia). injection Ha as <-.
      eapply moves_new_pool; [done..|lia|done].
  - (* Receive *)
    destruct (callers sy !! w) as [[b|]|]; try done.
    destruct (select_receive b src (st sy)) as [[dbh s'|]|] eqn:Hsel; try done.
    injection Ha as <-. apply moves_frame. by eapply select_receive_frame.
  - (* Timeout *)
    by destruct (callers sy !! w) as [[b|]|].
  - (* Run *)
    destruct (goroutines (st sy) !! g) as [[b poolName|b poolName id|b dbh|]|]; try done.
    + injection Ha as Ha. apply advance_continue in Ha as (t & s' & Hm & _ & ->).
      destruct (heap (st sy) !! b) as [p|] eqn:Hp.
      * erewrite run_bind in Hm by (by apply AddInt32_run).
        injection Hm as <- <-. by eapply moves_alloc.
      * unfold AddInt32, get_pool, mbind, M_bind in Hm. by rewrite Hp in Hm.
    + injection Ha as Ha. apply advance_continue in Ha as (t & s' & Hm & _ & ->).
      apply moves_frame. eapply frame_trans; [|apply frame_set_goroutines].
      assert (framed (dbh ← provision b poolName id; mret (Sending b dbh))) as Hf.
      { apply framed_bind; [apply framed_provision|intros; apply framed_ret]. }
      exact (wp_elim _ _ _ _ _ (Hf (st sy)) Hm).
    + destruct (send b dbh (st sy)) as [s'|] eqn:Hsend; [|done].
      simpl in Ha. injection Ha as <-. simpl.
      apply moves_frame. eapply frame_trans; [|apply frame_set_goroutines].
      by eapply send_frame.
Qed.

(** ** The invariant *)

Lemma wrap32_add (a c : Z) : wrap32 (wrap32 a + c) = wrap32 (a + c).
Proof.
  unfold wrap32. f_equal.
  replace ((a + 2 ^ 31) mod 2 ^ 32 - 2 ^ 31 + c + 2 ^ 31)
    with ((a + 2 ^ 31) mod 2 ^ 32 + c) by lia.
  rewrite Zplus_mod_idemp_l. f_equal. lia.
Qed.

Lemma wrap32_small (z : Z) : MinInt32 ≤ z ≤ MaxInt32 → wrap32 z = z.
Proof.
  unfold wrap32, MinInt32, MaxInt32. intros H.
  rewrite Z.mod_small by lia. lia.
Qed.

Lemma allocated_S n : allocated (S n) = allocated n ++ [wrap32 (Z.of_nat (S n))].
Proof. unfold allocated. by rewrite seq_S, fmap_app. Qed.

Lemma length_allocated n : length (allocated n) = n.
Proof. unfold allocated. by rewrite length_fmap, length_seq. Qed.

Lemma count_go_new_pool n k b poolName :
  count (is_new_pool n) (replicate k (EvGo b poolName)) = 0%nat.
Proof. induction k; simpl; auto. Qed.

Lemma identities_go b0 k b poolName :
  identities b0 (replicate k (EvGo b poolName)) = [].
Proof. induction k; simpl; auto. Qed.

Lemma started_keeps p p' : started p → keeps_binding p p' → started p'.
Proof.
  intros (Hv & Hd & Hc & ch & Hch & Hcap) (_ & Hv' & _ & Hd' & Hc' & Hch').
  destruct (Hch' ch Hch) as (ch' & ? & ?).
  repeat split; [congruence|auto|auto|]. exists ch'. split; [done|congruence].
Qed.

Lemma Inv_init w u : Inv (st (init w u)).
Proof. by split. Qed.

Lemma Inv_frame s s' : Inv s → frame s s' → Inv s'.
Proof.
  intros [Hreg Hst Hcr Hnew Hids Hnext] (Hr & Hlen & Hpools & evs & Htr & Hq1 & Hq2).
  assert (∀ b p', heap s' !! b = Some p' →
            ∃ p, heap s !! b = Some p ∧ keeps_binding p p') as Hback.
  { intros b p' Hp'. assert (is_Some (heap s !! b)) as [p Hp].
    { apply lookup_lt_is_Some. rewrite <- Hlen. by eapply lookup_lt_Some. }
    destruct (Hpools b p Hp) as (p'' & Hp'' & ?). exists p. split; [done|congruence]. }
  split.
  - intros n b Hb. rewrite Hr in Hb. destruct (Hreg n b Hb) as [p Hp].
    destruct (Hpools b p Hp) as (p' & -> & _). eauto.
  - intros b p' Hp'. destruct (Hback b p' Hp') as (p & Hp & Hk).
    eapply started_keeps; eauto.
  - intros n b Hb. rewrite Hr in Hb. rewrite Htr. apply elem_of_app. left. eauto.
  - intros n. by rewrite Htr, count_app, Hq1, Hr, Hnew, Nat.add_0_r.
  - intros b. by rewrite Htr, identities_app, Hq2, app_nil_r.
  - intros b. rewrite Htr, identities_app, Hq2, app_nil_r. specialize (Hnext b).
    destruct (heap s' !! b) as [p'|] eqn:Hp'.
    + destruct (Hback b p' Hp') as (p & Hp & _ & _ & Hn & _).
      rewrite Hp in Hnext. congruence.
    + destruct (heap s !! b) as [p|] eqn:Hp; [|done].
      destruct (Hpools b p Hp) as (? & ? & _). congruence.
Qed.

Lemma Inv_alloc s b p g :
  Inv s → heap s !! b = Some p →
  Inv (set_goroutines g
         (add_event (EvAddInt32 b (wrap32 (nextID p + 1)))
            (set_heap (<[b := with_nextID (wrap32 (nextID p + 1)) p]> (heap s)) s))).
Proof.
  intros [Hreg Hst Hcr Hnew Hids Hnext] Hp.
  assert (nextID p = wrap32 (Z.of_nat (length (identities b (trace s))))) as Hn.
  { specialize (Hnext b). by rewrite Hp in Hnext. }
  assert (wrap32 (nextID p + 1) = wrap32 (Z.of_nat (S (length (identities b (trace s))))))
    as Hid.
  { rewrite Hn, wrap32_add. f_equal. lia. }
  split; autorewrite with st.
  - intros n b0 Hb0. destruct (Hreg n b0 Hb0) as [p0 Hp0].
    destruct (decide (b0 = b)) as [->|Hne].
    + erewrite lookup_insert_same by done. eauto.
    + rewrite list_lookup_insert_ne by done. eauto.
  - intros b0 p0 Hp0. destruct (decide (b0 = b)) as [->|Hne].
    + erewrite lookup_insert_same in Hp0 by done. injection Hp0 as <-.
      destruct (Hst b p Hp) as (? & ? & ? & ?). by repeat split.
    + rewrite list_lookup_insert_ne in Hp0 by done. eauto.
  - intros n b0 Hb0. apply elem_of_app. left. eauto.
  - intros n. rewrite count_app. simpl. by rewrite Hnew, Nat.add_0_r.
  - intros b0. rewrite identities_app. simpl. case_bool_decide as Hb.
    + subst b0. rewrite length_app. simpl. rewrite Nat.add_1_r, allocated_S.
      by rewrite <- Hids, Hid.
    + by rewrite app_nil_r.
  - intros b0. rewrite identities_app. simpl. case_bool_decide as Hb.
    + subst b0. erewrite lookup_insert_same by done. simpl.
      rewrite length_app. simpl. by rewrite Nat.add_1_r.
    + rewrite app_nil_r, list_lookup_insert_ne by done. apply Hnext.
Qed.

Lemma started_started_pool sch p : started (started_pool sch p).
Proof. repeat split; simpl; eauto. Qed.

Lemma heap_new_pool poolName sch s :
  heap (after_go (length (heap s)) poolName
          (after_start (length (heap s)) poolName sch zero_pool
             (after_store_new poolName s))) =
    heap s ++ [started_pool sch zero_pool].
Proof.
  unfold after_go, after_start, after_store_new. autorewrite with st.
  rewrite insert_app_r_alt by lia. by rewrite Nat.sub_diag.
Qed.

Lemma registry_new_pool poolName sch s :
  backgroundDBPoolsByName
    (after_go (length (heap s)) poolName
       (after_start (length (heap s)) poolName sch zero_pool
          (after_store_new poolName s))) =
    <[poolName := length (heap s)]> (backgroundDBPoolsByName s).
Proof. unfold after_go, after_start, after_store_new. by autorewrite with st. Qed.

Lemma trace_new_pool poolName sch s :
  trace (after_go (length (heap s)) poolName
           (after_start (length (heap s)) poolName sch zero_pool
              (after_store_new poolName s))) =
    trace s ++ EvNewPool poolName (length (heap s))
      :: replicate (S (Z.to_nat initialPoolSize)) (EvGo (length (heap s)) poolName).
Proof.
  unfold after_go, after_start, after_store_new. autorewrite with st.
  rewrite <- !app_assoc. simpl. by rewrite replicate_snoc.
Qed.

Lemma Inv_new_pool s poolName sch :
  Inv s → backgroundDBPoolsByName s !! poolName = None →
  Inv (after_go (length (heap s)) poolName
         (after_start (length (heap s)) poolName sch zero_pool
            (after_store_new poolName s))).
Proof.
  intros [Hreg Hst Hcr Hnew Hids Hnext] Hb.
  split; rewrite ?heap_new_pool, ?registry_new_pool, ?trace_new_pool.
  - intros n b0 Hb0. destruct (decide (n = poolName)) as [->|Hne].
    + rewrite lookup_insert_eq in Hb0. injection Hb0 as <-.
      rewrite lookup_app_r, Nat.sub_diag by done. eauto.
    + rewrite lookup_insert_ne in Hb0 by done.
      destruct (Hreg n b0 Hb0) as [p0 Hp0]. exists p0.
      by apply lookup_app_l_Some.
  - intros b0 p0 Hp0. apply lookup_app_Some in Hp0 as [Hp0|[_ Hp0]]; [eauto|].
    destruct (b0 - length (heap s))%nat; [|done].
    injection Hp0 as <-. apply started_started_pool.
  - intros n b0 Hb0. apply elem_of_app. destruct (decide (n = poolName)) as [->|Hne].
    + rewrite lookup_insert_eq in Hb0. injection Hb0 as <-. right. apply elem_of_cons. by left.
    + rewrite lookup_insert_ne in Hb0 by done. left. eauto.
  - intros n. rewrite count_app. cbn [count is_new_pool].
    rewrite count_go_new_pool, Hnew. destruct (decide (n = poolName)) as [->|Hne].
    + rewrite lookup_insert_eq, Hb, bool_decide_eq_true_2 by done. done.
    + rewrite lookup_insert_ne, bool_decide_eq_false_2 by done.
      destruct (backgroundDBPoolsByName s !! n); lia.
  - intros b0. rewrite identities_app. cbn [identities].
    by rewrite identities_go, app_nil_r.
  - intros b0. rewrite identities_app. cbn [identities].
    rewrite identities_go, app_nil_r. specialize (Hnext b0).
    destruct ((heap s ++ [started_pool sch zero_pool]) !! b0) as [p0|] eqn:Hp0.
    + apply lookup_app_Some in Hp0 as [Hp0|[Hge Hp0]].
      * by rewrite Hp0 in Hnext.
      * destruct (b0 - length (heap s))%nat; [|done]. injection Hp0 as <-.
        rewrite lookup_ge_None_2 in Hnext by done. by rewrite Hnext.
    + apply lookup_ge_None in Hp0. rewrite length_app in Hp0. simpl in Hp0.
      rewrite lookup_ge_None_2 in Hnext by lia. done.
Qed.

Lemma Inv_moves s s' : Inv s → moves s s' → Inv s'.
Proof.
  intros HI [Hf|b p g Hp ->|poolName sch Hb _ _ ->].
  - by eapply Inv_frame.
  - by apply Inv_alloc.
  - by apply Inv_new_pool.
Qed.

Lemma Inv_steps sy sy' : steps sy sy' → Inv (st sy) → Inv (st sy').
Proof.
  induction 1 as [|sy1 sy2 sy3 Hstep _ IH]; [done|].
  intros HI. apply IH. eapply Inv_moves; [done|]. by apply step_moves.
Qed.

Lemma Inv_reachable sy : reachable sy → Inv (st sy).
Proof. intros (w & u & Hsteps). eapply Inv_steps; [done|]. apply Inv_init. Qed.

(** ** Schedules *)

Lemma run_steps sched sy sy' : run sched sy = Some (Continue sy') → steps sy sy'.
Proof.
  revert sy. induction sched as [|a sched IH]; intros sy; simpl.
  - intros [= <-]. apply rtc_refl.
  - destruct (sys_step a sy) as [[sy1|]|] eqn:Ha; try done.
    intros Hrun. eapply rtc_l; [by exists a|]. by apply IH.
Qed.

Lemma allocated_lookup_lt n k :
  (k < n)%nat → allocated n !! k = Some (wrap32 (Z.of_nat k + 1)).
Proof.
  intros Hk. unfold allocated. rewrite list_lookup_fmap, lookup_seq_lt by done.
  simpl. do 2 f_equal. lia.
Qed.

(** A pool can have any number of provisioning runs: each call launches a
    goroutine, and the scheduler lets it allocate its identity. *)
Lemma reachable_allocations (poolName : string) (w : World) (u : bool) (n : nat) :
  label ≠ "" → 0 ≤ initialPoolSize →
  ∃ sy, steps (init w u) sy ∧
    backgroundDBPoolsByName (st sy) !! poolName = Some 0%nat ∧
    length (identities 0%nat (trace (st sy))) = n.
Proof.
  intros Hl Hn. induction n as [|n (sy & Hsteps & Hb & Hlen)].
  - pose proof (enter_new poolName None (st (init w u)) (lookup_empty _) Hl Hn) as Henter.
    eexists. split; [|split].
    + eapply rtc_once. exists (Call poolName None). cbn [sys_step]. rewrite Henter. done.
    + cbn [st]. by rewrite registry_new_pool, lookup_insert_eq.
    + cbn [st]. rewrite trace_new_pool. simpl. by rewrite identities_go.
  - assert (Inv (st sy)) as HI by (eapply Inv_steps; [done|apply Inv_init]).
    destruct (inv_registry _ HI _ _ Hb) as [p Hp].
    pose proof (enter_existing poolName None 0%nat p (st sy) Hb Hp) as Henter.
    rewrite bool_decide_eq_false_2 in Henter by (by intros [? _]).
    set (sy1 := {| st := after_go 0%nat poolName (st sy);
                   callers := callers sy ++ [Waiting 0%nat] |}).
    assert (step sy sy1) as Hstep1.
    { exists (Call poolName None). simpl. by rewrite Henter. }
    set (g := length (goroutines (st sy))).
    assert (goroutines (st sy1) !! g = Some (Spawned 0%nat poolName)) as Hg.
    { unfold sy1, after_go. cbn [st]. autorewrite with st.
      by rewrite lookup_app_r, Nat.sub_diag. }
    assert (heap (st sy1) !! 0%nat = Some p) as Hp1.
    { unfold sy1, after_go. cbn [st]. by autorewrite with st. }
    eexists. split; [|split].
    + eapply rtc_r; [eapply rtc_r; [exact Hsteps|exact Hstep1]|].
      exists (Run g). cbn [sys_step]. rewrite Hg. unfold advance.
      erewrite run_bind by (by apply AddInt32_run). done.
    + cbn [st]. autorewrite with st. unfold sy1, after_go. cbn [st].
      by autorewrite with st.
    + cbn [st]. autorewrite with st. unfold sy1, after_go. cbn [st].
      autorewrite with st. rewrite !identities_app. simpl.
      rewrite app_nil_r, length_app. simpl. lia.
Qed.

(** After 2^31 provisioning runs on one pool the counter has wrapped: the
    last identity is the least [int32], below the one before it. *)
Lemma counter_wraps (w : World) (u : bool) :
  label ≠ "" → 0 ≤ initialPoolSize →
  ∃ sy, reachable sy ∧
    identities 0%nat (trace (st sy)) !! Z.to_nat (2 ^ 31 - 2) = Some MaxInt32 ∧
    identities 0%nat (trace (st sy)) !! Z.to_nat (2 ^ 31 - 1) = Some MinInt32.
Proof.
  intros Hl Hn.
  destruct (reachable_allocations "pool" w u (Z.to_nat (2 ^ 31)) Hl Hn)
    as (sy & Hsteps & _ & Hlen).
  assert (reachable sy) as Hreach by (by exists w, u).
  exists sy. split; [done|].
  rewrite (inv_identities _ (Inv_reachable _ Hreach) 0%nat), Hlen.
  rewrite !allocated_lookup_lt by lia. rewrite !Z2Nat.id by lia. done.
Qed.

(** * The claims *)


(** ** prepareNewDB, lines 140-149 *)

Lemma run_external {R} (op : World → R * World) s r w :
  op (world s) = (r, w) → external op s = Ok r (set_world w s).
Proof. unfold external. by intros ->. Qed.

Lemma provision_run b poolName id p l s cerr w1 r w2 :
  let dbname := dbname_of poolName label id Getpid in
  let s2 := set_world w2 (add_event (EvCreatedb dbname cerr) (set_world w1 s)) in
  heap s !! b = Some p → schema p = Some l →
  createdb dbname (world s) = (cerr, w1) →
  dbutil2_Open ("dbname=" +:+ dbname) (schema_at l) w1 = (r, w2) →
  provision b poolName id s =
    match r with
    | inr err =>
        Stop (LogFatal (OpenFailed err)) (add_event (EvOpen ("dbname=" +:+ dbname) (Some err)) s2)
    | inl dbh =>
        (prepareDBs b id dbh dropSchema createSchema truncate;;
         when verbose (vlog_Printf b (OpenedNewDB dbname));;
         mret dbh) (add_event (EvOpen ("dbname=" +:+ dbname) None) s2)
    end.
Proof.
  intros dbname s2 Hp Hsch Hc Ho. unfold provision. fold dbname.
  erewrite run_bind by (by apply run_external).
  erewrite run_bind by reflexivity.
  erewrite run_bind by (apply run_get_pool; autorewrite with st; exact Hp).
  rewrite Hsch. cbn [deref_schema].
  erewrite run_bind by reflexivity.
  erewrite run_bind by (apply run_external; autorewrite with st; exact Ho).
  destruct r as [dbh|err].
  - by erewrite run_bind by reflexivity.
  - by erewrite run_bind by reflexivity.
Qed.

Lemma provision_nil_schema b poolName id p s :
  heap s !! b = Some p → schema p = None →
  ∃ s', provision b poolName id s = Stop (GoPanic NilDereference) s'.
Proof.
  intros Hp Hsch. unfold provision.
  destruct (createdb (dbname_of poolName label id Getpid) (world s)) as [cerr w1] eqn:Hc.
  erewrite run_bind by (by apply run_external).
  erewrite run_bind by reflexivity.
  erewrite run_bind by (apply run_get_pool; autorewrite with st; exact Hp).
  rewrite Hsch. cbn [deref_schema]. eexists. by erewrite run_bind_stop by reflexivity.
Qed.

(** C5.  In a provisioning run on a pool with a schema, whatever [createdb]
    returns, failure included, the run goes on to open the database.  If the
    open fails the run ends in the fatal error OpenFailed after that one
    attempt, and the scheduler action that ran it ends the process: no
    later action runs.  If the open succeeds the run continues with
    [prepareDBs] on the opened handle. *)
Theorem createdb_swallowed_open_fatal (b : loc) (poolName : string) (id : Z)
    (p : backgroundDBPool) (l : loc) (sy : Sys) (g : nat)
    (cerr : option error) (w1 : World) (r : Handle + error) (w2 : World) :
  let dbname := dbname_of poolName label id Getpid in
  let s := st sy in
  let s2 := set_world w2 (add_event (EvCreatedb dbname cerr) (set_world w1 s)) in
  heap s !! b = Some p → schema p = Some l →
  goroutines s !! g = Some (Allocated b poolName id) →
  createdb dbname (world s) = (cerr, w1) →
  dbutil2_Open ("dbname=" +:+ dbname) (schema_at l) w1 = (r, w2) →
  match r with
  | inr err =>
      let s3 := add_event (EvOpen ("dbname=" +:+ dbname) (Some err)) s2 in
      provision b poolName id s = Stop (LogFatal (OpenFailed err)) s3 ∧
      count is_open (trace s3) = S (count is_open (trace s)) ∧
      ∀ sched, run (Run g :: sched) sy = Some (Crash (LogFatal (OpenFailed err)) s3)
  | inl dbh =>
      provision b poolName id s =
        (prepareDBs b id dbh dropSchema createSchema truncate;;
         when verbose (vlog_Printf b (OpenedNewDB dbname));;
         mret dbh) (add_event (EvOpen ("dbname=" +:+ dbname) None) s2)
  end.
Proof.
  intros dbname s s2 Hp Hsch Hg Hc Ho.
  pose proof (provision_run b poolName id p l s cerr w1 r w2 Hp Hsch Hc Ho) as Hrun.
  destruct r as [dbh|err]; [done|]. split; [done|]. split.
  - subst s2. autorewrite with st. rewrite !count_app. simpl. lia.
  - intros sched. cbn [run sys_step]. fold s. rewrite Hg. unfold advance. fold s.
    by erewrite run_bind_stop by exact Hrun.
Qed.

(** C7.  [start] on a configured process (a label, a pool size that is not
    negative) launches exactly initialPoolSize goroutines running
    [prepareNewDB] and makes the ready queue an empty channel of capacity
    initialPoolSize; and every call of [pristineDBs] on an existing pool
    that passes the schema check launches exactly one more. *)
Theorem replenishment :
  (∀ (b : loc) (poolName : string) (sch : option loc) (p : backgroundDBPool) (s : State),
     heap s !! b = Some p → label ≠ "" → 0 ≤ initialPoolSize →
     ∃ s' launched,
       start b poolName sch s = Ok tt s' ∧
       goroutines s' = goroutines s ++ launched ∧
       launched = replicate (Z.to_nat initialPoolSize) (Spawned b poolName) ∧
       Z.of_nat (length launched) = initialPoolSize ∧
       trace s' = trace s ++ replicate (Z.to_nat initialPoolSize) (EvGo b poolName) ∧
       ∃ p', heap s' !! b = Some p' ∧
         readyDBs p' = Some {| buf := []; cap := initialPoolSize |}) ∧
  (∀ (poolName : string) (sch : option loc) (b b' : loc) (s s' : State),
     backgroundDBPoolsByName s !! poolName = Some b →
     pristineDBs_enter poolName sch s = Ok b' s' →
     b' = b ∧
     goroutines s' = goroutines s ++ [Spawned b poolName] ∧
     trace s' = trace s ++ [EvGo b poolName]).
Proof.
  split.
  - intros b poolName sch p s Hp Hl Hn.
    exists (after_start b poolName sch p s). eexists. split; [by apply start_run|].
    unfold after_start. autorewrite with st. repeat split.
    + rewrite length_replicate. lia.
    + exists (started_pool sch p). split; [by eapply lookup_insert_same|done].
  - intros poolName sch b b' s s' Hb Henter.
    destruct (heap s !! b) as [p|] eqn:Hp.
    + rewrite (enter_existing _ _ _ _ _ Hb Hp) in Henter.
      case_bool_decide; [done|]. injection Henter as <- <-.
      unfold after_go. by autorewrite with st.
    + unfold pristineDBs_enter in Henter.
      erewrite run_bind in Henter by (by apply lookup_or_create_existing).
      cbv beta iota in Henter. unfold get_pool, mbind, M_bind in Henter.
      by rewrite Hp in Henter.
Qed.

(** ** Callers *)

Lemma step_callers sy sy' w b :
  step sy sy' → callers sy !! w = Some (Waiting b) →
  callers sy' !! w = Some (Waiting b) ∨ ∃ dbh, callers sy' !! w = Some (Returned dbh).
Proof.
  intros [a Ha] Hw. destruct a as [poolName sch|w' src|w'|g]; simpl in Ha.
  - destruct (pristineDBs_enter poolName sch (st sy)); [|done].
    injection Ha as <-. left. simpl. by apply lookup_app_l_Some.
  - destruct (callers sy !! w') as [[b'|]|] eqn:Hw'; try done.
    destruct (select_receive b' src (st sy)) as [[dbh s'|]|]; try done.
    injection Ha as <-. simpl. destruct (decide (w' = w)) as [->|Hne].
    + right. exists dbh. by eapply lookup_insert_same.
    + left. by rewrite list_lookup_insert_ne.
  - by destruct (callers sy !! w') as [[b'|]|].
  - destruct (goroutines (st sy) !! g) as [[b' poolName|b' poolName id|b' dbh|]|]; try done.
    + injection Ha as Ha. apply advance_continue in Ha as (? & ? & _ & -> & _). by left.
    + injection Ha as Ha. apply advance_continue in Ha as (? & ? & _ & -> & _). by left.
    + destruct (send b' dbh (st sy)); [|done]. injection Ha as <-. by left.
Qed.

Lemma steps_callers sy sy' w b :
  steps sy sy' → callers sy !! w = Some (Waiting b) →
  callers sy' !! w = Some (Waiting b) ∨ ∃ dbh, callers sy' !! w = Some (Returned dbh).
Proof.
  induction 1 as [|sy1 sy2 sy3 Hstep Hsteps IH]; [by left|].
  intros Hw. destruct (step_callers _ _ _ _ Hstep Hw) as [Hw2|[dbh Hw2]]; [by apply IH|].
  right. clear IH Hstep Hw. revert dbh Hw2.
  induction Hsteps as [|sy2 sy3 sy4 Hstep _ IH]; intros dbh Hw2; [eauto|].
  destruct Hstep as [a Ha]. destruct a as [poolName sch|w' src|w'|g]; simpl in Ha.
  - destruct (pristineDBs_enter poolName sch (st sy2)); [|done].
    injection Ha as <-. apply (IH dbh). simpl. by apply lookup_app_l_Some.
  - destruct (callers sy2 !! w') as [[b'|]|] eqn:Hw'; try done.
    destruct (select_receive b' src (st sy2)) as [[dbh' s'|]|]; try done.
    injection Ha as <-. apply (IH dbh). simpl.
    rewrite list_lookup_insert_ne; [done|]. congruence.
  - by destruct (callers sy2 !! w') as [[b'|]|].
  - destruct (goroutines (st sy2) !! g) as [[b' poolName|b' poolName id|b' dbh'|]|]; try done.
    + injection Ha as Ha. apply advance_continue in Ha as (? & ? & _ & Hc & _).
      apply (IH dbh). by rewrite Hc.
    + injection Ha as Ha. apply advance_continue in Ha as (? & ? & _ & Hc & _).
      apply (IH dbh). by rewrite Hc.
    + destruct (send b' dbh' (st sy2)); [|done]. injection Ha as <-. by apply (IH dbh).
Qed.

Lemma select_receive_take b src dbh s s' :
  select_receive b src s = Some (Ok dbh s') → ∃ s0, take b src s = Some (dbh, s0).
Proof.
  unfold select_receive. intros H.
  destruct (take b src s) as [[dbh0 s0]|] eqn:Htake; [|done]. simpl in H.
  injection H as H. exists s0. do 2 f_equal.
  assert (wp (emit (EvRecv b dbh0);;
              when verbose (vlog_Printf b (GotNewDBs (DataSource dbh0)));;
              mret dbh0) (λ a _, a = dbh0) s0) as Hwp.
  { repeat wp_step; done. }
  symmetry. exact (wp_elim _ _ _ _ _ Hwp H).
Qed.

(** How a call that stops before line 82 ends. *)
Lemma pristineDBs_stopped poolName sch sy e s1 out :
  pristineDBs_enter poolName sch (st sy) = Stop e s1 →
  pristineDBs poolName sch sy out → out = Dies e.
Proof.
  intros Henter Hout.
  assert (sys_step (Call poolName sch) sy = Some (Crash e s1)) as Hcall.
  { simpl. by rewrite Henter. }
  inversion Hout as [e' s He|sy1 sy2 b' src dbh sy3 H1|sy1 sy2 src e' s H1
                    |sy1 sy2 e' s H1|sy1 sy2 b' a e' s H1];
    rewrite Hcall in *; congruence.
Qed.

Lemma enter_stops poolName sch s e s' :
  Inv s → pristineDBs_enter poolName sch s = Stop e s' →
  e = LogFatal (SchemaMismatch poolName) ∨
  e = LogFatal ConfigError ∨ e = GoPanic MakechanSize.
Proof.
  intros HI Henter.
  destruct (backgroundDBPoolsByName s !! poolName) as [b|] eqn:Hb.
  - destruct (inv_registry s HI poolName b Hb) as [p Hp].
    rewrite (enter_existing _ _ _ _ _ Hb Hp) in Henter.
    case_bool_decide; [|done]. injection Henter as <- _. by left.
  - destruct (decide (label = "" ∨ initialPoolSize < 0)) as [Hbad|Hgood].
    + destruct (enter_new_stops poolName sch s Hb Hbad) as (e' & s'' & He' & Hcases).
      rewrite He' in Henter. injection Henter as <- _. by right.
    + rewrite enter_new in Henter; [done|done|..].
      * intros Hl. apply Hgood. by left.
      * destruct (decide (initialPoolSize < 0)); [|lia]. exfalso. apply Hgood. by right.
Qed.

(** C10.  The schema check compares pointers: on a pool bound to the schema
    object at [l], a call that passes another object [l'], even one with
    the same contents, ends in the fatal error SchemaMismatch, and in no
    other way. *)
Theorem schema_compared_by_identity (poolName : string) (b : loc)
    (p : backgroundDBPool) (l l' : loc) (sy : Sys) :
  backgroundDBPoolsByName (st sy) !! poolName = Some b →
  heap (st sy) !! b = Some p →
  schema p = Some l →
  l' ≠ l →
  schema_at l' = schema_at l →
  pristineDBs poolName (Some l') sy (Dies (LogFatal (SchemaMismatch poolName))) ∧
  ∀ out, pristineDBs poolName (Some l') sy out →
         out = Dies (LogFatal (SchemaMismatch poolName)).
Proof.
  intros Hb Hp Hsch Hne _.
  pose proof (enter_existing poolName (Some l') b p (st sy) Hb Hp) as Henter.
  rewrite bool_decide_eq_true_2 in Henter by (split; congruence).
  split.
  - eapply pristine_enter_dies. simpl. by rewrite Henter.
  - intros out Hout. by eapply pristineDBs_stopped.
Qed.

(** ** What the registry and the pools keep *)

Lemma moves_registry s s' n b :
  moves s s' → backgroundDBPoolsByName s !! n = Some b →
  backgroundDBPoolsByName s' !! n = Some b.
Proof.
  intros [(Hr & _)|b0 p g Hp ->|poolName sch Hnone _ _ ->] Hb.
  - by rewrite Hr.
  - by autorewrite with st.
  - rewrite registry_new_pool, lookup_insert_ne; [done|]. congruence.
Qed.

Lemma steps_registry sy sy' n b :
  steps sy sy' → backgroundDBPoolsByName (st sy) !! n = Some b →
  backgroundDBPoolsByName (st sy') !! n = Some b.
Proof.
  induction 1 as [|sy1 sy2 sy3 Hstep _ IH]; [done|].
  intros Hb. apply IH. eapply moves_registry; [|done]. by apply step_moves.
Qed.

Lemma moves_schema s s' b p :
  moves s s' → heap s !! b = Some p →
  ∃ p', heap s' !! b = Some p' ∧ schema p' = schema p.
Proof.
  intros [(_ & _ & Hpools & _)|b0 p0 g Hp0 ->|poolName sch Hnone _ _ ->] Hp.
  - destruct (Hpools b p Hp) as (p' & ? & ? & _). eauto.
  - autorewrite with st. destruct (decide (b = b0)) as [->|Hne].
    + erewrite lookup_insert_same by done. eexists. split; [done|]. simpl. congruence.
    + rewrite list_lookup_insert_ne by done. eauto.
  - rewrite heap_new_pool. exists p. split; [|done]. by apply lookup_app_l_Some.
Qed.

Lemma steps_schema sy sy' b p :
  steps sy sy' → heap (st sy) !! b = Some p →
  ∃ p', heap (st sy') !! b = Some p' ∧ schema p' = schema p.
Proof.
  intros Hsteps. revert p. induction Hsteps as [|sy1 sy2 sy3 Hstep _ IH]; [eauto|].
  intros p Hp. destruct (moves_schema _ _ _ _ (step_moves _ _ Hstep) Hp) as (p' & Hp' & Hs).
  destruct (IH p' Hp') as (p'' & ? & ?). exists p''. split; [done|congruence].
Qed.

(** C3.  In a running process, at most one pool was ever constructed for a
    name, and it is the one registered under it; an entry of the registry,
    once present, stays and keeps its pool; and every call for a name that
    has a pool finds that pool and constructs nothing. *)
Theorem pool_created_once (poolName : string) (sy sy' : Sys) :
  reachable sy → steps sy sy' →
  (count (is_new_pool poolName) (trace (st sy')) ≤ 1)%nat ∧
  (backgroundDBPoolsByName (st sy') !! poolName = None →
     count (is_new_pool poolName) (trace (st sy')) = 0%nat) ∧
  ∀ b, backgroundDBPoolsByName (st sy) !! poolName = Some b →
    EvNewPool poolName b ∈ trace (st sy) ∧
    backgroundDBPoolsByName (st sy') !! poolName = Some b ∧
    count (is_new_pool poolName) (trace (st sy')) = 1%nat ∧
    ∀ sch, lookup_or_create poolName sch (st sy') = Ok (Some b) (st sy').
Proof.
  intros Hreach Hsteps.
  pose proof (Inv_reachable _ Hreach) as HI.
  pose proof (Inv_steps _ _ Hsteps HI) as HI'.
  pose proof (inv_new_pool _ HI' poolName) as Hcount.
  split; [|split].
  - rewrite Hcount. destruct (backgroundDBPoolsByName (st sy') !! poolName); lia.
  - intros Hnone. by rewrite Hcount, Hnone.
  - intros b Hb. pose proof (steps_registry _ _ _ _ Hsteps Hb) as Hb'.
    split; [by apply (inv_created _ HI)|]. split; [done|].
    split; [by rewrite Hcount, Hb'|].
    intros sch. by apply lookup_or_create_existing.
Qed.

(** ** Identities *)

Lemma wrap32_eq (a c : Z) : wrap32 a = wrap32 c → (a - c) mod 2 ^ 32 = 0.
Proof.
  unfold wrap32. intros H.
  assert ((a + 2 ^ 31) mod 2 ^ 32 = (c + 2 ^ 31) mod 2 ^ 32) as Hm by lia.
  replace (a - c) with ((a + 2 ^ 31) - (c + 2 ^ 31)) by lia.
  rewrite Zminus_mod, Hm, Z.sub_diag. done.
Qed.

Lemma allocated_lookup n k id :
  allocated n !! k = Some id → (k < n)%nat ∧ id = wrap32 (Z.of_nat k + 1).
Proof.
  unfold allocated. rewrite list_lookup_fmap. intros H.
  destruct (seq 1 n !! k) as [x|] eqn:Hx; [|done].
  apply lookup_seq in Hx as [-> ?]. injection H as <-.
  split; [done|]. f_equal. lia.
Qed.

(** C6, as amended.  Each provisioning run obtains its identity from
    [atomic.AddInt32(&b.nextID, 1)]: on every pool the run number k+1 gets
    k+1 wrapped to 32 bits, and the counter holds the number of runs so far,
    wrapped.  While a pool has had at most 2^31-1 runs its identities are
    strictly increasing in allocation order, hence pairwise distinct; and
    two runs fewer than 2^32 allocations apart never get the same
    identity. *)
Theorem identities_of_a_pool (b : loc) (sy : Sys) :
  reachable sy →
  (∀ k id, identities b (trace (st sy)) !! k = Some id → id = wrap32 (Z.of_nat k + 1)) ∧
  (∀ p, heap (st sy) !! b = Some p →
     nextID p = wrap32 (Z.of_nat (length (identities b (trace (st sy)))))) ∧
  (Z.of_nat (length (identities b (trace (st sy)))) ≤ MaxInt32 →
     ∀ i j x y, (i < j)%nat →
       identities b (trace (st sy)) !! i = Some x →
       identities b (trace (st sy)) !! j = Some y → x < y) ∧
  (∀ i j x y, (i < j)%nat → Z.of_nat j - Z.of_nat i < 2 ^ 32 →
     identities b (trace (st sy)) !! i = Some x →
     identities b (trace (st sy)) !! j = Some y → x ≠ y).
Proof.
  intros Hreach. pose proof (Inv_reachable _ Hreach) as HI.
  pose proof (inv_identities _ HI b) as Hids.
  pose proof (inv_nextID _ HI b) as Hnext.
  set (ids := identities b (trace (st sy))) in *.
  assert (∀ k id, ids !! k = Some id →
            (k < length ids)%nat ∧ id = wrap32 (Z.of_nat k + 1)) as Hk.
  { intros k id Hid. rewrite Hids in Hid. by apply allocated_lookup in Hid. }
  split; [|split; [|split]].
  - intros k id Hid. by apply Hk.
  - intros p Hp. by rewrite Hp in Hnext.
  - intros Hlen i j x y Hij Hx Hy.
    apply Hk in Hx as [Hi ->]. apply Hk in Hy as [Hj ->].
    unfold MaxInt32 in Hlen.
    rewrite !wrap32_small by (unfold MinInt32, MaxInt32; lia). lia.
  - intros i j x y Hij Hwin Hx Hy.
    apply Hk in Hx as [Hi ->]. apply Hk in Hy as [Hj ->].
    intros Heq. symmetry in Heq. apply wrap32_eq in Heq.
    replace (Z.of_nat j + 1 - (Z.of_nat i + 1)) with (Z.of_nat j - Z.of_nat i) in Heq by lia.
    rewrite Z.mod_small in Heq by lia. lia.
Qed.

(** C9.  In a configured process, the first call for a pool name with a nil
    schema gets past pool creation and the schema check: the pool is
    registered with a nil schema.  From then on every provisioning run of
    that pool that reaches line 142 panics on the nil pointer, which ends
    the process with a run-time panic and not with a fatal error. *)
Theorem nil_schema_pool_panics (poolName : string) (sy : Sys) :
  label ≠ "" → 0 ≤ initialPoolSize →
  backgroundDBPoolsByName (st sy) !! poolName = None →
  ∃ b sy1 p,
    sys_step (Call poolName None) sy = Some (Continue sy1) ∧
    backgroundDBPoolsByName (st sy1) !! poolName = Some b ∧
    heap (st sy1) !! b = Some p ∧ schema p = None ∧
    ∀ sy2 g name id,
      steps sy1 sy2 →
      goroutines (st sy2) !! g = Some (Allocated b name id) →
      ∃ s', provision b name id (st sy2) = Stop (GoPanic NilDereference) s' ∧
            sys_step (Run g) sy2 = Some (Crash (GoPanic NilDereference) s').
Proof.
  intros Hl Hn Hb.
  pose proof (enter_new poolName None (st sy) Hb Hl Hn) as Henter.
  eexists _, _, (started_pool None zero_pool). split; [simpl; by rewrite Henter|].
  cbn [st]. rewrite heap_new_pool, registry_new_pool, lookup_insert_eq.
  split; [done|]. split; [by rewrite lookup_app_r, Nat.sub_diag|]. split; [done|].
  intros sy2 g name id Hsteps Hg.
  destruct (steps_schema _ sy2 (length (heap (st sy))) (started_pool None zero_pool) Hsteps)
    as (p' & Hp' & Hs').
  { cbn [st]. by rewrite heap_new_pool, lookup_app_r, Nat.sub_diag. }
  destruct (provision_nil_schema _ name id p' (st sy2) Hp' Hs') as [s' Hprov].
  exists s'. split; [done|]. cbn [sys_step]. rewrite Hg. unfold advance.
  by erewrite run_bind_stop by exact Hprov.
Qed.

(** ** How the process can stop *)

Lemma wpe_mono {A} (m : M A) (Q Q' : A → State → Prop) (E : Abort → Prop) s :
  wpe m Q E s → (∀ a s', Q a s' → Q' a s') → wpe m Q' E s.
Proof. unfold wpe. destruct (m s); auto. Qed.

Lemma wpe_bind {A B} (m : M A) (f : A → M B) Q (E : Abort → Prop) s :
  wpe m (λ a s', wpe (f a) Q E s') E s → wpe (m ≫= f) Q E s.
Proof. unfold wpe, mbind, M_bind. by destruct (m s). Qed.

Lemma wpe_when (c : bool) m Q (E : Abort → Prop) s :
  (c = true → wpe m Q E s) → (c = false → Q tt s) → wpe (when c m) Q E s.
Proof. intros H1 H2. destruct c; [exact (H1 eq_refl) | exact (H2 eq_refl)]. Qed.

Lemma wpe_ret {A} (a : A) (Q : A → State → Prop) (E : Abort → Prop) s :
  Q a s → wpe (mret a) Q E s.
Proof. done. Qed.

Lemma wpe_modify_state f (Q : unit → State → Prop) (E : Abort → Prop) s :
  Q tt (f s) → wpe (modify_state f) Q E s.
Proof. done. Qed.

Lemma wpe_external {R} (op : World → R * World) (Q : R → State → Prop)
    (E : Abort → Prop) s :
  (∀ r w, op (world s) = (r, w) → Q r (set_world w s)) → wpe (external op) Q E s.
Proof. unfold wpe, external. destruct (op (world s)); auto. Qed.

Lemma wpe_get_pool b (Q : backgroundDBPool → State → Prop) (E : Abort → Prop) s :
  (∀ p, heap s !! b = Some p → Q p s) →
  (heap s !! b = None → E (GoPanic NilDereference)) →
  wpe (get_pool b) Q E s.
Proof. unfold wpe, get_pool. destruct (heap s !! b); auto. Qed.

Lemma equipped_heap b s s' : heap s' = heap s → equipped b s → equipped b s'.
Proof. intros Hh (p & Hp & ?). exists p. by rewrite Hh. Qed.

Lemma wpe_get_equipped b (Q : backgroundDBPool → State → Prop) (E : Abort → Prop) s :
  equipped b s →
  (∀ p, heap s !! b = Some p →
     is_Some (vlog p) → is_Some (dropped p) → is_Some (created p) → Q p s) →
  wpe (get_pool b) Q E s.
Proof.
  intros (p & Hp & Hv & Hd & Hc) HQ. unfold wpe. rewrite (run_get_pool b p s Hp). auto.
Qed.

Lemma vlog_Printf_safe b msg (E : Abort → Prop) s :
  equipped b s → wpe (vlog_Printf b msg) (λ _ s', equipped b s') E s.
Proof.
  intros Heq. apply wpe_bind, wpe_get_equipped; [done|].
  intros p Hp [l Hl] _ _. rewrite Hl. destruct l.
  - apply wpe_modify_state. eapply equipped_heap; [|done]. by autorewrite with st.
  - done.
Qed.

Lemma log_safe (c : bool) b msg (E : Abort → Prop) s :
  equipped b s → wpe (when c (vlog_Printf b msg)) (λ _ s', equipped b s') E s.
Proof. intros Heq. apply wpe_when; [intros _; by apply vlog_Printf_safe|done]. Qed.

Lemma equipped_update b p p' s :
  heap s !! b = Some p →
  is_Some (vlog p') → is_Some (dropped p') → is_Some (created p') →
  equipped b (set_heap (<[b := p']> (heap s)) s).
Proof.
  intros Hp ? ? ?. exists p'. autorewrite with st.
  split; [by eapply lookup_insert_same|done].
Qed.

Lemma drop_schema_safe b id mdb (E : Abort → Prop) s :
  (∀ err, E (LogFatal (SchemaDropFailed err))) →
  equipped b s → wpe (drop_schema b id mdb) (λ _ s', equipped b s') E s.
Proof.
  intros HE Heq. unfold drop_schema.
  apply wpe_bind. eapply wpe_mono; [by apply log_safe|]. intros ? s1 H1. cbv beta in H1.
  apply wpe_bind, wpe_modify_state.
  apply wpe_bind, wpe_external. intros [err|] w _; [apply HE|].
  apply wpe_bind, wpe_get_equipped.
  { eapply equipped_heap; [|exact H1]. by autorewrite with st. }
  intros p Hp Hv [m Hm] Hc. rewrite Hm. cbn [map_set_true].
  apply wpe_bind, wpe_ret. unfold modify_pool.
  apply wpe_bind, wpe_get_equipped.
  { eapply equipped_heap; [|exact H1]. by autorewrite with st. }
  intros p' Hp' Hv' Hd' Hc'. apply wpe_modify_state.
  eapply equipped_update; [exact Hp'|done|by eexists|done].
Qed.

Lemma create_schema_safe b id mdb (E : Abort → Prop) s :
  (∀ err, E (LogFatal (SchemaCreateFailed err))) →
  equipped b s → wpe (create_schema b id mdb) (λ _ s', equipped b s') E s.
Proof.
  intros HE Heq. unfold create_schema.
  apply wpe_bind. eapply wpe_mono; [by apply log_safe|]. intros ? s1 H1. cbv beta in H1.
  apply wpe_bind, wpe_modify_state.
  apply wpe_bind, wpe_external. intros [err|] w _; [apply HE|].
  apply wpe_bind, wpe_get_equipped.
  { eapply equipped_heap; [|exact H1]. by autorewrite with st. }
  intros p Hp Hv Hd [m Hm]. rewrite Hm. cbn [map_set_true].
  apply wpe_bind, wpe_ret. unfold modify_pool.
  apply wpe_bind, wpe_get_equipped.
  { eapply equipped_heap; [|exact H1]. by autorewrite with st. }
  intros p' Hp' Hv' Hd' Hc'. apply wpe_modify_state.
  eapply equipped_update; [exact Hp'|done|done|by eexists].
Qed.

Lemma truncate_tables_safe b id mdb (E : Abort → Prop) s :
  (∀ err, E (LogFatal (TruncateFailed err))) →
  equipped b s → wpe (truncate_tables b id mdb) (λ _ s', equipped b s') E s.
Proof.
  intros HE Heq. unfold truncate_tables.
  apply wpe_bind. eapply wpe_mono; [by apply log_safe|]. intros ? s1 H1. cbv beta in H1.
  apply wpe_bind, wpe_modify_state.
  apply wpe_bind, wpe_external. intros [err|] w _; [apply HE|].
  eapply equipped_heap; [|exact H1]. by autorewrite with st.
Qed.

(** On a pool that was started, [prepareDBs] stops only at lines 163, 172
    and 181. *)
Lemma prepareDBs_safe b id mdb d c t (E : Abort → Prop) s :
  (∀ err, E (LogFatal (SchemaDropFailed err))) →
  (∀ err, E (LogFatal (SchemaCreateFailed err))) →
  (∀ err, E (LogFatal (TruncateFailed err))) →
  equipped b s → wpe (prepareDBs b id mdb d c t) (λ _ s', equipped b s') E s.
Proof.
  intros HD HC HT Heq. unfold prepareDBs.
  apply wpe_bind, wpe_get_equipped; [done|]. intros p _ _ _ _.
  apply wpe_bind. eapply wpe_mono.
  { apply wpe_when; [intros _; by apply drop_schema_safe|intros _; exact Heq]. }
  intros ? s1 H1. cbv beta in H1.
  apply wpe_bind, wpe_get_equipped; [done|]. intros p1 _ _ _ _.
  apply wpe_bind. eapply wpe_mono.
  { apply wpe_when; [intros _; by apply create_schema_safe|intros _; exact H1]. }
  intros ? s2 H2. cbv beta in H2.
  apply wpe_bind. eapply wpe_mono.
  { apply wpe_when; [intros _; by apply truncate_tables_safe|intros _; exact H2]. }
  intros ? s3 H3. cbv beta in H3. by apply log_safe.
Qed.

(** A provisioning run stops only with the nil dereference of line 142 or
    a fatal error of lines 144, 163, 172 and 181. *)
Lemma provision_safe b poolName id s :
  (∀ p, heap s !! b = Some p → started p) →
  wpe (provision b poolName id) (λ _ _, True) provisioning_failure s.
Proof.
  intros Hst. unfold provision.
  apply wpe_bind, wpe_external. intros cerr w1 _.
  apply wpe_bind, wpe_modify_state.
  apply wpe_bind, wpe_get_pool; [|intros _; by left].
  intros p Hp. autorewrite with st in Hp.
  destruct (Hst p Hp) as (Hv & Hd & Hc & _).
  apply wpe_bind. destruct (schema p) as [l|]; [|by left]. cbn [deref_schema].
  apply wpe_bind, wpe_external. intros [dbh|err] w2 _.
  - apply wpe_bind, wpe_modify_state.
    apply wpe_bind. eapply wpe_mono.
    { apply prepareDBs_safe.
      - intros err. right. right. left. eauto.
      - intros err. right. right. right. left. eauto.
      - intros err. right. right. right. right. eauto.
      - exists p. by autorewrite with st. }
    intros ? s1 H1. cbv beta in H1. apply wpe_bind. eapply wpe_mono; [by apply log_safe|]. done.
  - apply wpe_bind, wpe_modify_state. right. left. eauto.
Qed.

Lemma run_crashes g sy e s :
  Inv (st sy) → sys_step (Run g) sy = Some (Crash e s) → provisioning_failure e.
Proof.
  intros HI Ha. cbn [sys_step] in Ha.
  destruct (goroutines (st sy) !! g) as [[b poolName|b poolName id|b dbh|]|]; try done.
  - injection Ha as Ha. unfold advance in Ha.
    destruct (heap (st sy) !! b) as [p|] eqn:Hp.
    + erewrite run_bind in Ha by (by apply AddInt32_run). done.
    + unfold AddInt32, get_pool, mbind, M_bind in Ha. rewrite Hp in Ha.
      injection Ha as <- _. by left.
  - injection Ha as Ha. unfold advance in Ha.
    pose proof (provision_safe b poolName id (st sy)
                  (λ p Hp, inv_started _ HI b p Hp)) as Hsafe.
    unfold wpe in Hsafe. unfold mbind, M_bind in Ha.
    destruct (provision b poolName id (st sy)) as [dbh s'|e' s']; [done|].
    by injection Ha as <- _.
  - destruct (send b dbh (st sy)); done.
Qed.

Lemma configured_moves s s' : configured s → moves s s' → configured s'.
Proof.
  intros Hc [(Hr & _)|b p g Hp ->|poolName sch Hnone Hl Hn ->] n b0 Hb0.
  - rewrite Hr in Hb0. eauto.
  - autorewrite with st in Hb0. eauto.
  - done.
Qed.

Lemma configured_steps sy sy' : steps sy sy' → configured (st sy) → configured (st sy').
Proof.
  induction 1 as [|sy1 sy2 sy3 Hstep _ IH]; [done|].
  intros Hc. apply IH. eapply configured_moves; [done|]. by apply step_moves.
Qed.

Lemma configured_reachable sy : reachable sy → configured (st sy).
Proof.
  intros (w & u & Hsteps). eapply configured_steps; [done|].
  intros n b Hb. simpl in Hb. by rewrite lookup_empty in Hb.
Qed.

Lemma enter_registers poolName sch s b s1 :
  pristineDBs_enter poolName sch s = Ok b s1 →
  backgroundDBPoolsByName s1 !! poolName = Some b.
Proof.
  intros Henter.
  destruct (backgroundDBPoolsByName s !! poolName) as [b0|] eqn:Hb.
  - destruct (heap s !! b0) as [p|] eqn:Hp.
    + rewrite (enter_existing _ _ _ _ _ Hb Hp) in Henter.
      case_bool_decide; [done|]. injection Henter as <- <-.
      unfold after_go. by autorewrite with st.
    + unfold pristineDBs_enter in Henter.
      erewrite run_bind in Henter by (by apply lookup_or_create_existing).
      cbv beta iota in Henter. unfold get_pool, mbind, M_bind in Henter.
      by rewrite Hp in Henter.
  - destruct (decide (label = "" ∨ initialPoolSize < 0)) as [Hbad|Hgood].
    + destruct (enter_new_stops poolName sch s Hb Hbad) as (e' & s'' & He' & _).
      by rewrite He' in Henter.
    + rewrite enter_new in Henter; [|done|..].
      * injection Henter as <- <-. by rewrite registry_new_pool, lookup_insert_eq.
      * intros Hl. apply Hgood. by left.
      * destruct (decide (initialPoolSize < 0)); [|lia]. exfalso. apply Hgood. by right.
Qed.

(** In a process that has a pool, what stops it is a provisioning goroutine
    or the schema check or the timer of a call. *)
Lemma crash_causes a sy e s :
  Inv (st sy) → configured (st sy) →
  (∃ n b, backgroundDBPoolsByName (st sy) !! n = Some b) →
  sys_step a sy = Some (Crash e s) →
  provisioning_failure e ∨ other_call_failure e.
Proof.
  intros HI Hcfg (n0 & b0 & Hb0) Ha.
  destruct a as [poolName sch|w src|w|g].
  - right. left. exists poolName. cbn [sys_step] in Ha.
    destruct (pristineDBs_enter poolName sch (st sy)) as [b s1|e' s1] eqn:Henter; [done|].
    injection Ha as <- _.
    destruct (backgroundDBPoolsByName (st sy) !! poolName) as [b|] eqn:Hb.
    + destruct (inv_registry _ HI poolName b Hb) as [p Hp].
      rewrite (enter_existing _ _ _ _ _ Hb Hp) in Henter.
      case_bool_decide; [|done]. by injection Henter as <- _.
    + destruct (Hcfg n0 b0 Hb0) as [Hl Hn].
      by rewrite enter_new in Henter.
  - exfalso. cbn [sys_step] in Ha.
    destruct (callers sy !! w) as [[b|]|]; try done.
    destruct (select_receive b src (st sy)) as [[dbh s'|e' s']|] eqn:Hsel; try done.
    eapply select_receive_stop; [|exact Hsel].
    intros b1 p1 Hp1. by eapply (inv_started (st sy)).
  - right. right. cbn [sys_step] in Ha.
    destruct (callers sy !! w) as [[b|]|]; try done. by injection Ha as <- _.
  - left. by eapply run_crashes.
Qed.

(** How a call that got past line 81 can end. *)
Lemma pristineDBs_entered poolName sch sy b s1 out :
  reachable sy →
  pristineDBs_enter poolName sch (st sy) = Ok b s1 →
  pristineDBs poolName sch sy out →
  out = Dies (LogFatal (ProvisionTimeout timeout)) ∨
  (∃ dbh sy2 src s0 sy3,
     out = Returns b dbh ∧
     steps {| st := s1; callers := callers sy ++ [Waiting b] |} sy2 ∧
     callers sy2 !! length (callers sy) = Some (Waiting b) ∧
     take b src (st sy2) = Some (dbh, s0) ∧
     sys_step (Receive (length (callers sy)) src) sy2 = Some (Continue sy3)) ∨
  (∃ e, out = Killed e ∧ (provisioning_failure e ∨ other_call_failure e)).
Proof.
  intros Hreach Henter Hout. pose proof (Inv_reachable _ Hreach) as HI.
  set (sy1 := {| st := s1; callers := callers sy ++ [Waiting b] |}).
  assert (sys_step (Call poolName sch) sy = Some (Continue sy1)) as Hcall.
  { simpl. by rewrite Henter. }
  assert (step sy sy1) as Hstep by (by eexists).
  assert (Inv (st sy1)) as HI1.
  { eapply Inv_moves; [exact HI|]. by apply step_moves. }
  assert (∀ sy2, steps sy1 sy2 →
            callers sy2 !! length (callers sy) = Some (Waiting b) ∨
            ∃ dbh, callers sy2 !! length (callers sy) = Some (Returned dbh)) as Hwait.
  { intros sy2 Hsteps. eapply steps_callers; [done|]. simpl.
    rewrite lookup_app_r, Nat.sub_diag by done. done. }
  inversion Hout as [e s He|sy1' sy2 b' src dbh sy3 H1 Hsteps Hw Hrecv Hret
                    |sy1' sy2 src e s H1 Hsteps Hrecv|sy1' sy2 e s H1 Hsteps Hto
                    |sy1' sy2 b' a e s H1 Hsteps Hw Hown Hcrash]; subst out.
  - rewrite Hcall in He. done.
  - rewrite Hcall in H1. injection H1 as <-. right. left.
    destruct (Hwait sy2 Hsteps) as [Hw'|[? Hw']]; [|congruence].
    assert (b' = b) as -> by congruence.
    pose proof Hrecv as Hrecv'.
    simpl in Hrecv. rewrite Hw in Hrecv.
    destruct (select_receive b src (st sy2)) as [[dbh' s'|]|] eqn:Hsel; try done.
    injection Hrecv as <-. simpl in Hret.
    erewrite lookup_insert_same in Hret by done. injection Hret as <-.
    destruct (select_receive_take _ _ _ _ _ Hsel) as [s0 Htake].
    exists dbh', sy2, src, s0. eexists. done.
  - rewrite Hcall in H1. injection H1 as <-. exfalso.
    simpl in Hrecv.
    destruct (callers sy2 !! length (callers sy)) as [[b'|]|]; try done.
    destruct (select_receive b' src (st sy2)) as [[dbh' s'|]|] eqn:Hsel; try done.
    injection Hrecv as <- <-.
    eapply select_receive_stop; [|exact Hsel].
    intros b0 p0 Hp0. eapply (inv_started (st sy2)); [|exact Hp0].
    by eapply (Inv_steps _ sy2 Hsteps).
  - left. simpl in Hto.
    destruct (callers sy2 !! length (callers sy)) as [[b'|]|]; try done.
    by injection Hto as <- _.
  - rewrite Hcall in H1. injection H1 as <-. right. right. exists e. split; [done|].
    assert (reachable sy2) as Hreach2.
    { destruct Hreach as (w & u & Hs). exists w, u.
      eapply rtc_trans; [exact Hs|]. by eapply rtc_l. }
    eapply crash_causes; [by apply Inv_reachable|by apply configured_reachable| |exact Hcrash].
    exists poolName, b. eapply steps_registry; [exact Hsteps|].
    by eapply enter_registers.
Qed.

(** C2, as amended.  On a pool that exists, a call of [pristineDBs] with a
    schema that is not nil and is not the pool's bound schema ends in the
    fatal error SchemaMismatch.  A call with nil or with the bound schema
    does not end in that error: it waits on that pool's ready queue, and
    then it returns a handle that it receives from that queue, or it ends in
    the fatal error ProvisionTimeout, or the process is stopped while it
    waits, by a provisioning goroutine (the nil dereference of line 142,
    OpenFailed, SchemaDropFailed, SchemaCreateFailed, the truncate failure
    of line 181) or by another call (its SchemaMismatch or its
    ProvisionTimeout). *)
Theorem schema_binding (poolName : string) (sch : option loc) (b : loc)
    (p : backgroundDBPool) (sy : Sys) (out : Outcome) :
  reachable sy →
  backgroundDBPoolsByName (st sy) !! poolName = Some b →
  heap (st sy) !! b = Some p →
  pristineDBs poolName sch sy out →
  (sch ≠ None → sch ≠ schema p →
     out = Dies (LogFatal (SchemaMismatch poolName))) ∧
  (sch = None ∨ sch = schema p →
     out ≠ Dies (LogFatal (SchemaMismatch poolName)) ∧
     (out = Dies (LogFatal (ProvisionTimeout timeout)) ∨
      (∃ dbh sy1 sy2 src s0 sy3,
         out = Returns b dbh ∧
         sys_step (Call poolName sch) sy = Some (Continue sy1) ∧
         steps sy1 sy2 ∧
         callers sy2 !! length (callers sy) = Some (Waiting b) ∧
         take b src (st sy2) = Some (dbh, s0) ∧
         sys_step (Receive (length (callers sy)) src) sy2 = Some (Continue sy3)) ∨
      (∃ e, out = Killed e ∧ (provisioning_failure e ∨ other_call_failure e)))).
Proof.
  intros Hreach Hb Hp Hout.
  pose proof (enter_existing poolName sch b p (st sy) Hb Hp) as Henter.
  split.
  - intros Hnil Hne. rewrite bool_decide_eq_true_2 in Henter by (split; congruence).
    by eapply pristineDBs_stopped.
  - intros Hsame.
    rewrite bool_decide_eq_false_2 in Henter by (intros [? ?]; destruct Hsame; congruence).
    destruct (pristineDBs_entered _ _ _ _ _ _ Hreach Henter Hout)
      as [->|[(dbh & sy2 & src & s0 & sy3 & -> & Hsteps & Hw & Htake & Hrecv)
             |(e & -> & He)]].
    + split; [done|by left].
    + split; [done|]. right. left.
      exists dbh, {| st := after_go b poolName (st sy);
                     callers := callers sy ++ [Waiting b] |}, sy2, src, s0, sy3.
      split; [done|]. split; [simpl; by rewrite Henter|]. done.
    + split; [done|]. right. right. eauto.
Qed.

(** C4, as amended.  Every call of [pristineDBs] ends in one of these ways.
    It returns a handle that it received from the ready queue of the pool
    of its name.  Or it ends in the fatal error ProvisionTimeout carrying 45
    seconds.  Or it is stopped before the wait: by the schema check
    (SchemaMismatch), by the empty label (ConfigError) or by [make] on a
    negative pool size.  Or the process is stopped while the call waits: by
    a provisioning goroutine (the nil dereference of line 142, OpenFailed,
    SchemaDropFailed, SchemaCreateFailed, the truncate failure of line 181)
    or by another call (its SchemaMismatch or its ProvisionTimeout). *)
Theorem acquisition_outcomes (poolName : string) (sch : option loc) (sy : Sys)
    (out : Outcome) :
  reachable sy →
  pristineDBs poolName sch sy out →
  (∃ b dbh sy1 sy2 src s0 sy3,
     out = Returns b dbh ∧
     sys_step (Call poolName sch) sy = Some (Continue sy1) ∧
     backgroundDBPoolsByName (st sy1) !! poolName = Some b ∧
     steps sy1 sy2 ∧
     callers sy2 !! length (callers sy) = Some (Waiting b) ∧
     take b src (st sy2) = Some (dbh, s0) ∧
     sys_step (Receive (length (callers sy)) src) sy2 = Some (Continue sy3)) ∨
  out = Dies (LogFatal (ProvisionTimeout (45 * Second))) ∨
  (∃ e s, sys_step (Call poolName sch) sy = Some (Crash e s) ∧ out = Dies e ∧
     (e = LogFatal (SchemaMismatch poolName) ∨
      e = LogFatal ConfigError ∨ e = GoPanic MakechanSize)) ∨
  (∃ e, out = Killed e ∧ (provisioning_failure e ∨ other_call_failure e)).
Proof.
  intros Hreach Hout. pose proof (Inv_reachable _ Hreach) as HI.
  destruct (pristineDBs_enter poolName sch (st sy)) as [b s1|e s1] eqn:Henter.
  - destruct (pristineDBs_entered _ _ _ _ _ _ Hreach Henter Hout)
      as [->|[(dbh & sy2 & src & s0 & sy3 & -> & Hsteps & Hw & Htake & Hrecv)
             |(e & -> & He)]].
    + by right; left.
    + left.
      exists b, dbh, {| st := s1; callers := callers sy ++ [Waiting b] |}, sy2, src, s0, sy3.
      split; [done|]. split; [simpl; by rewrite Henter|].
      split; [by eapply enter_registers|]. done.
    + right. right. right. eauto.
  - right. right. left. exists e, s1. split; [simpl; by rewrite Henter|].
    split; [by eapply pristineDBs_stopped|]. by eapply enter_stops.
Qed.

(** ** Names of databases *)

Lemma chars_app (s1 s2 : string) : chars (s1 +:+ s2) = chars s1 ++ chars s2.
Proof. induction s1 as [|c s1 IH]; simpl; [done|]. by rewrite IH. Qed.

Lemma chars_inj (s1 s2 : string) : chars s1 = chars s2 → s1 = s2.
Proof.
  intros H. rewrite <- (String.string_of_list_ascii_of_string s1),
    <- (String.string_of_list_ascii_of_string s2). by rewrite H.
Qed.

(** Two texts that agree cut at their last dash into the same pieces. *)
Lemma last_dash (l1 l2 d1 d2 : list ascii) :
  dash ∉ d1 → dash ∉ d2 → l1 ++ dash :: d1 = l2 ++ dash :: d2 → l1 = l2 ∧ d1 = d2.
Proof.
  intros H1 H2. revert l2. induction l1 as [|c l1 IH]; intros [|c' l2] H; simpl in H.
  - by injection H as ->.
  - injection H as <- ->. destruct H1. apply elem_of_app. right. by left.
  - injection H as -> <-. destruct H2. apply elem_of_app. right. by left.
  - injection H as <- H. by destruct (IH l2 H) as [-> ->].
Qed.

Lemma pretty_N_char_no_dash (x : N) : pretty_N_char x ≠ dash.
Proof. unfold pretty_N_char. by repeat case_match. Qed.

Lemma pretty_N_go_shape (x : N) (s : string) :
  ∃ ds, chars (pretty_N_go x s) = ds ++ chars s ∧ (dash ∉ ds) ∧ ((0 < x)%N → ds ≠ []).
Proof.
  revert s. induction (N.lt_wf_0 x) as [x _ IH]; intros s.
  assert (x = 0 ∨ 0 < x)%N as [->|Hx] by lia.
  - exists []. rewrite pretty_N_go_0. split; [done|]. split; [by intros ?%elem_of_nil|lia].
  - rewrite pretty_N_go_step by done.
    destruct (IH (x `div` 10)%N (N.div_lt x 10 Hx eq_refl)
                (String (pretty_N_char (x `mod` 10)) s)) as (ds & Hds & Hfree & _).
    exists (ds ++ [pretty_N_char (x `mod` 10)%N]). rewrite Hds. simpl.
    split; [by rewrite <- app_assoc|]. split.
    + intros [?|Hin%list_elem_of_singleton]%elem_of_app; [done|].
      by eapply pretty_N_char_no_dash.
    + intros _. by destruct ds.
Qed.

Lemma pretty_N_shape (x : N) : (dash ∉ chars (pretty x)) ∧ chars (pretty x) ≠ [].
Proof.
  unfold pretty, pretty_N. case_decide as Hx.
  - split; [|done]. simpl. intros [?|?%elem_of_nil]%elem_of_cons; done.
  - destruct (pretty_N_go_shape x "") as (ds & Hds & Hfree & Hne).
    rewrite Hds. simpl. rewrite app_nil_r. split; [done|]. apply Hne. lia.
Qed.

(** [%d]: an optional sign, then digits. *)
Lemma pretty_Z_shape (z : Z) :
  ∃ ds, (dash ∉ ds) ∧ ds ≠ [] ∧
    (chars (pretty z) = ds ∨ chars (pretty z) = dash :: ds).
Proof.
  destruct z as [|x|x].
  - exists (chars "0"). split; [|split; [done|by left]].
    simpl. intros [?|?%elem_of_nil]%elem_of_cons; done.
  - destruct (pretty_N_shape (N.pos x)) as [? ?]. exists (chars (pretty (N.pos x))).
    split; [done|]. split; [done|]. by left.
  - destruct (pretty_N_shape (N.pos x)) as [? ?]. exists (chars (pretty (N.pos x))).
    split; [done|]. split; [done|]. by right.
Qed.

(** A name ends in a dash and the digits of the process identifier; before
    that dash stands a minus sign, or the last digit of the identity. *)
Lemma dbname_shape (poolName lbl : string) (id pid : Z) :
  ∃ l ds, chars (dbname_of poolName lbl id pid) = l ++ dash :: ds ∧ (dash ∉ ds) ∧
    ((chars (pretty pid) = ds ∧
      ∃ l0 ds0, l = l0 ++ dash :: ds0 ∧ (dash ∉ ds0) ∧ ds0 ≠ []) ∨
     (chars (pretty pid) = dash :: ds ∧ ∃ l0, l = l0 ++ dash :: [])).
Proof.
  destruct (pretty_Z_shape pid) as (ds & Hfree & _ & Hpid).
  destruct (pretty_Z_shape id) as (ds0 & Hfree0 & Hne0 & Hid).
  unfold dbname_of. rewrite !chars_app.
  set (pre := chars "sgtmp-" ++ chars poolName ++ chars "-" ++ chars lbl).
  change (chars "-") with [dash].
  destruct Hpid as [Hpid|Hpid]; rewrite Hpid.
  - exists (pre ++ [dash] ++ chars (pretty id)), ds.
    split; [unfold pre; by rewrite <- ?app_assoc|]. split; [done|]. left. split; [done|].
    destruct Hid as [Hid|Hid]; rewrite Hid.
    + exists pre, ds0. by rewrite <- ?app_assoc.
    + exists (pre ++ [dash]), ds0. by rewrite <- ?app_assoc.
  - exists ((pre ++ [dash] ++ chars (pretty id)) ++ [dash]), ds.
    split; [unfold pre; by rewrite <- ?app_assoc|]. split; [done|]. right. split; [done|].
    by eexists.
Qed.

Lemma dbname_pid_inj poolName lbl id pid poolName' lbl' id' pid' :
  dbname_of poolName lbl id pid = dbname_of poolName' lbl' id' pid' → pid = pid'.
Proof.
  intros Heq. apply (f_equal chars) in Heq.
  destruct (dbname_shape poolName lbl id pid) as (l & ds & Hl & Hfree & Hcase).
  destruct (dbname_shape poolName' lbl' id' pid') as (l' & ds' & Hl' & Hfree' & Hcase').
  rewrite Hl, Hl' in Heq. apply last_dash in Heq as [-> ->]; [|done..].
  destruct Hcase as [[Hp (l0 & ds0 & Hl0 & Hf0 & Hn0)]|[Hp (l0 & Hl0)]],
    Hcase' as [[Hp' (l1 & ds1 & Hl1 & Hf1 & Hn1)]|[Hp' (l1 & Hl1)]].
  - apply (inj pretty), chars_inj. congruence.
  - rewrite Hl0 in Hl1. apply last_dash in Hl1 as [_ ->]; [done|done|].
    by intros ?%elem_of_nil.
  - rewrite Hl1 in Hl0. apply last_dash in Hl0 as [_ ->]; [done|done|].
    by intros ?%elem_of_nil.
  - apply (inj pretty), chars_inj. congruence.
Qed.

Lemma dbname_id_inj poolName lbl id id' pid :
  dbname_of poolName lbl id pid = dbname_of poolName lbl id' pid → id = id'.
Proof.
  intros Heq. apply (f_equal chars) in Heq. unfold dbname_of in Heq.
  rewrite !chars_app in Heq.
  do 5 apply app_inv_head in Heq. apply app_inv_tail in Heq.
  by apply (inj pretty), chars_inj.
Qed.

Lemma provision_trace b poolName id s :
  wp (provision b poolName id) (λ _ s', ∃ cerr rest,
      trace s' = trace s
        ++ EvCreatedb (dbname_of poolName label id Getpid) cerr
        :: EvOpen ("dbname=" +:+ dbname_of poolName label id Getpid) None
        :: rest) s.
Proof.
  unfold provision.
  apply wp_bind, wp_external. intros cerr w1 _.
  apply wp_bind, wp_modify_state.
  apply wp_bind, wp_get_pool. intros p Hp.
  apply wp_bind. destruct (schema p) as [l|]; [apply wp_ret|apply wp_panic].
  apply wp_bind, wp_external. intros [dbh|err] w2 _.
  - apply wp_bind, wp_modify_state.
    assert (framed (prepareDBs b id dbh dropSchema createSchema truncate;;
                    when verbose (vlog_Printf b
                      (OpenedNewDB (dbname_of poolName label id Getpid)));;
                    mret dbh)) as Hf by framed.
    eapply wp_mono; [apply Hf|].
    intros _ s' (_ & _ & _ & evs & Htr & _). autorewrite with st in Htr.
    exists cerr, evs. rewrite Htr. by rewrite <- !app_assoc.
  - apply wp_bind, wp_modify_state. apply wp_fatal.
Qed.

(** C8.  A provisioning run passes to [createdb] and to [dbutil2.Open] the
    name computed from the pool name, the label, the identity and the
    process identifier, and from nothing else.  Two names that differ only
    in the identity are different, and two names with different process
    identifiers are different whatever their other parts. *)
Theorem dbname_unique :
  (∀ (b : loc) (poolName : string) (id : Z) (s s' : State) (dbh : Handle),
     provision b poolName id s = Ok dbh s' →
     ∃ cerr rest,
       trace s' = trace s
         ++ EvCreatedb (dbname_of poolName label id Getpid) cerr
         :: EvOpen ("dbname=" +:+ dbname_of poolName label id Getpid) None
         :: rest) ∧
  (∀ (poolName lbl : string) (id id' pid : Z),
     id ≠ id' → dbname_of poolName lbl id pid ≠ dbname_of poolName lbl id' pid) ∧
  (∀ (poolName lbl poolName' lbl' : string) (id id' pid pid' : Z),
     pid ≠ pid' → dbname_of poolName lbl id pid ≠ dbname_of poolName' lbl' id' pid').
Proof.
  split; [|split].
  - intros b poolName id s s' dbh Hrun.
    exact (wp_elim _ _ _ _ _ (provision_trace b poolName id s) Hrun).
  - intros poolName lbl id id' pid Hne Heq. by apply dbname_id_inj in Heq.
  - intros poolName lbl poolName' lbl' id id' pid pid' Hne Heq.
    by apply dbname_pid_inj in Heq.
Qed.

End Proofs.

(** * The claims on the small server *)

Import Toy.

(** ** Runs used below *)

Lemma reachable_sy_pool : reachable sy_pool.
Proof.
  exists server, false. apply (run_steps [Call "pkgA" (Some 0%nat)]).
  vm_compute. reflexivity.
Qed.

Lemma reachable_sy_two : reachable sy_two.
Proof.
  exists server, false. apply (run_steps [Call "pkgA" (Some 0%nat); Run 0; Run 1]).
  vm_compute. reflexivity.
Qed.

Lemma steps_sy_returned : steps sy_pool sy_returned.
Proof.
  apply (run_steps [Call "pkgA" None; Run 0; Run 0; Run 0; Receive 1 FromBuffer]).
  vm_compute. reflexivity.
Qed.

(** A call with a nil schema whose timer fires before a database is ready. *)
Lemma pristineDBs_times_out :
  pristineDBs "pkgA" None sy_pool (Dies (LogFatal (ProvisionTimeout timeout))).
Proof.
  apply (pristine_timeout "pkgA" None sy_pool sy_called sy_called _ (st sy_called)).
  - vm_compute. reflexivity.
  - apply rtc_refl.
  - vm_compute. reflexivity.
Qed.

(** The same call when a goroutine finishes first. *)
Lemma pristineDBs_returns :
  pristineDBs "pkgA" None sy_pool (Returns 0%nat ("dbname=" +:+ name_1)).
Proof.
  apply (pristine_receive "pkgA" None sy_pool sy_called sy_ready 0%nat FromBuffer
           ("dbname=" +:+ name_1) sy_returned).
  - vm_compute. reflexivity.
  - apply (run_steps [Run 0; Run 0; Run 0]). vm_compute. reflexivity.
  - vm_compute. reflexivity.
  - vm_compute. reflexivity.
  - vm_compute. reflexivity.
Qed.

(** A call that passes the schema object at address 1. *)
Lemma pristineDBs_mismatch :
  pristineDBs "pkgA" (Some 1%nat) sy_pool (Dies (LogFatal (SchemaMismatch "pkgA"))).
Proof.
  apply (pristine_enter_dies "pkgA" (Some 1%nat) sy_pool _ (st sy_pool)).
  vm_compute. reflexivity.
Qed.

(** A call that waits while a goroutine fails to open its database: the
    process is stopped under it. *)
Lemma pristineDBs_killed :
  pristineDBs "pkgA" None sy_full_pool (Killed (LogFatal (OpenFailed "does not exist"))).
Proof.
  apply (pristine_killed "pkgA" None sy_full_pool sy_full_called sy_full_allocated
           0%nat (Run 0) _ (final (provision 0 "pkgA" 1 (st sy_full_allocated)))).
  - vm_compute. reflexivity.
  - apply (run_steps [Run 0]). vm_compute. reflexivity.
  - vm_compute. reflexivity.
  - reflexivity.
  - vm_compute. reflexivity.
Qed.

(** ** C1 *)


(** ** C2 *)

Lemma schema_binding_witness :
  reachable sy_pool ∧
  backgroundDBPoolsByName (st sy_pool) !! "pkgA" = Some 0%nat ∧
  heap (st sy_pool) !! 0%nat = Some pool_A ∧
  pristineDBs "pkgA" None sy_pool (Returns 0%nat ("dbname=" +:+ name_1)) ∧
  (@None nat = None ∨ None = schema pool_A) ∧
  Returns 0%nat ("dbname=" +:+ name_1) ≠ Dies (LogFatal (SchemaMismatch "pkgA")) ∧
  (Returns 0%nat ("dbname=" +:+ name_1) = Dies (LogFatal (ProvisionTimeout timeout)) ∨
   (∃ dbh sy1 sy2 src s0 sy3,
      Returns 0%nat ("dbname=" +:+ name_1) = Returns 0%nat dbh ∧
      sys_step (Call "pkgA" None) sy_pool = Some (Continue sy1) ∧
      steps sy1 sy2 ∧
      callers sy2 !! length (callers sy_pool) = Some (Waiting 0%nat) ∧
      take 0%nat src (st sy2) = Some (dbh, s0) ∧
      sys_step (Receive (length (callers sy_pool)) src) sy2 = Some (Continue sy3)) ∨
   (∃ e, Returns 0%nat ("dbname=" +:+ name_1) = Killed e ∧
         (provisioning_failure e ∨ other_call_failure e))).
Proof.
  assert (backgroundDBPoolsByName (st sy_pool) !! "pkgA" = Some 0%nat) as Hb
    by (vm_compute; reflexivity).
  assert (heap (st sy_pool) !! 0%nat = Some pool_A) as Hp by (vm_compute; reflexivity).
  split; [exact reachable_sy_pool|]. split; [exact Hb|]. split; [exact Hp|].
  split; [exact pristineDBs_returns|]. split; [left; reflexivity|].
  exact (proj2 (schema_binding "pkgA" None 0%nat pool_A sy_pool _
                  reachable_sy_pool Hb Hp pristineDBs_returns) (or_introl eq_refl)).
Defined.

(** On the existing pool of "pkgA" a call with a nil schema can end without
    a handle: its timer fires while the ready queue is empty. *)
Lemma nil_schema_call_times_out :
  backgroundDBPoolsByName (st sy_pool) !! "pkgA" = Some 0%nat ∧
  pristineDBs "pkgA" None sy_pool (Dies (LogFatal (ProvisionTimeout timeout))) ∧
  ∀ b dbh, Dies (LogFatal (ProvisionTimeout timeout)) ≠ Returns b dbh.
Proof.
  split; [vm_compute; reflexivity|]. split; [exact pristineDBs_times_out|].
  intros b dbh H. discriminate H.
Qed.

(** ** C3 *)

Lemma pool_created_once_witness :
  reachable sy_pool ∧ steps sy_pool sy_returned ∧
  (count (is_new_pool "pkgA") (trace (st sy_returned)) ≤ 1)%nat ∧
  (backgroundDBPoolsByName (st sy_returned) !! "pkgA" = None →
     count (is_new_pool "pkgA") (trace (st sy_returned)) = 0%nat) ∧
  ∀ b, backgroundDBPoolsByName (st sy_pool) !! "pkgA" = Some b →
    EvNewPool "pkgA" b ∈ trace (st sy_pool) ∧
    backgroundDBPoolsByName (st sy_returned) !! "pkgA" = Some b ∧
    count (is_new_pool "pkgA") (trace (st sy_returned)) = 1%nat ∧
    ∀ sch, lookup_or_create "pkgA" sch (st sy_returned) = Ok (Some b) (st sy_returned).
Proof.
  split; [exact reachable_sy_pool|]. split; [exact steps_sy_returned|].
  exact (pool_created_once "pkgA" sy_pool sy_returned reachable_sy_pool steps_sy_returned).
Defined.

(** ** C4 *)

Lemma acquisition_outcomes_witness :
  reachable sy_pool ∧
  pristineDBs "pkgA" None sy_pool (Returns 0%nat ("dbname=" +:+ name_1)) ∧
  ((∃ b dbh sy1 sy2 src s0 sy3,
      Returns 0%nat ("dbname=" +:+ name_1) = Returns b dbh ∧
      sys_step (Call "pkgA" None) sy_pool = Some (Continue sy1) ∧
      backgroundDBPoolsByName (st sy1) !! "pkgA" = Some b ∧
      steps sy1 sy2 ∧
      callers sy2 !! length (callers sy_pool) = Some (Waiting b) ∧
      take b src (st sy2) = Some (dbh, s0) ∧
      sys_step (Receive (length (callers sy_pool)) src) sy2 = Some (Continue sy3)) ∨
   Returns 0%nat ("dbname=" +:+ name_1) = Dies (LogFatal (ProvisionTimeout (45 * Second))) ∨
   (∃ e s, sys_step (Call "pkgA" None) sy_pool = Some (Crash e s) ∧
      Returns 0%nat ("dbname=" +:+ name_1) = Dies e ∧
      (e = LogFatal (SchemaMismatch "pkgA") ∨
       e = LogFatal ConfigError ∨ e = GoPanic MakechanSize)) ∨
   (∃ e, Returns 0%nat ("dbname=" +:+ name_1) = Killed e ∧
         (provisioning_failure e ∨ other_call_failure e))).
Proof.
  split; [exact reachable_sy_pool|]. split; [exact pristineDBs_returns|].
  exact (acquisition_outcomes "pkgA" None sy_pool _ reachable_sy_pool pristineDBs_returns).
Defined.

(** A call of [pristineDBs] that neither returns a handle nor ends in
    ProvisionTimeout: it passes another schema than the pool's. *)
Lemma mismatch_is_a_third_outcome :
  reachable sy_pool ∧
  pristineDBs "pkgA" (Some 1%nat) sy_pool (Dies (LogFatal (SchemaMismatch "pkgA"))) ∧
  (∀ b dbh, Dies (LogFatal (SchemaMismatch "pkgA")) ≠ Returns b dbh) ∧
  Dies (LogFatal (SchemaMismatch "pkgA")) ≠ Dies (LogFatal (ProvisionTimeout (45 * Second))).
Proof.
  split; [exact reachable_sy_pool|]. split; [exact pristineDBs_mismatch|].
  split; [intros b dbh H; discriminate H|]. intros H. discriminate H.
Qed.

(** ** C5 *)

Lemma createdb_swallowed_open_fatal_witness :
  heap (st sy_full) !! 0%nat = Some pool_full ∧
  schema pool_full = Some 0%nat ∧
  goroutines (st sy_full) !! 0%nat = Some (Allocated 0 "pkgA" 1) ∧
  createdb name_1 (world (st sy_full)) = (Some "quota exceeded", full_server) ∧
  dbutil2_Open ("dbname=" +:+ name_1) (schema_at 0%nat) full_server =
    (inr "does not exist", full_server) ∧
  ∃ s3,
    provision 0 "pkgA" 1 (st sy_full) = Stop (LogFatal (OpenFailed "does not exist")) s3 ∧
    count is_open (trace s3) = S (count is_open (trace (st sy_full))) ∧
    ∀ sched, run (Run 0 :: sched) sy_full =
               Some (Crash (LogFatal (OpenFailed "does not exist")) s3).
Proof.
  assert (heap (st sy_full) !! 0%nat = Some pool_full) as Hp by (vm_compute; reflexivity).
  assert (schema pool_full = Some 0%nat) as Hs by (vm_compute; reflexivity).
  assert (goroutines (st sy_full) !! 0%nat = Some (Allocated 0 "pkgA" 1)) as Hg
    by (vm_compute; reflexivity).
  assert (createdb name_1 (world (st sy_full)) = (Some "quota exceeded", full_server)) as Hc
    by (vm_compute; reflexivity).
  assert (dbutil2_Open ("dbname=" +:+ name_1) (schema_at 0%nat) full_server =
            (inr "does not exist", full_server)) as Ho by (vm_compute; reflexivity).
  repeat (split; [assumption|]). eexists.
  exact (createdb_swallowed_open_fatal 0 "pkgA" 1 pool_full 0 sy_full 0
           (Some "quota exceeded") full_server (inr "does not exist") full_server
           Hp Hs Hg Hc Ho).
Defined.

(** ** C6 *)

Lemma identities_of_a_pool_witness :
  reachable sy_two ∧
  identities 0%nat (trace (st sy_two)) = [1; 2] ∧
  Z.of_nat (length (identities 0%nat (trace (st sy_two)))) ≤ MaxInt32 ∧
  ∀ i j x y, (i < j)%nat →
    identities 0%nat (trace (st sy_two)) !! i = Some x →
    identities 0%nat (trace (st sy_two)) !! j = Some y → x < y.
Proof.
  assert (Z.of_nat (length (identities 0%nat (trace (st sy_two)))) ≤ MaxInt32) as Hlen
    by (vm_compute; discriminate).
  split; [exact reachable_sy_two|]. split; [vm_compute; reflexivity|].
  split; [exact Hlen|].
  exact (proj1 (proj2 (proj2 (identities_of_a_pool 0%nat sy_two reachable_sy_two))) Hlen).
Defined.

(** A pool whose identities are not increasing: after 2^31 provisioning
    runs the counter has wrapped from the greatest [int32] to the least. *)
Lemma identities_wrap_around :
  ∃ sy : Sys, reachable sy ∧
    ∃ i j x y, (i < j)%nat ∧
      identities 0%nat (trace (st sy)) !! i = Some x ∧
      identities 0%nat (trace (st sy)) !! j = Some y ∧
      y < x.
Proof.
  destruct (counter_wraps (BE := backend) (CF := config) server false)
    as (sy & Hreach & Hi & Hj).
  - vm_compute. discriminate.
  - vm_compute. discriminate.
  - exists sy. split; [exact Hreach|].
    exists (Z.to_nat (2 ^ 31 - 2)), (Z.to_nat (2 ^ 31 - 1)), MaxInt32, MinInt32.
    split; [lia|]. split; [exact Hi|]. split; [exact Hj|]. reflexivity.
Qed.

(** ** C7 *)

Lemma replenishment_witness :
  heap (after_store_new "pkgA" (st sy_init)) !! 0%nat = Some zero_pool ∧
  label ≠ "" ∧ 0 ≤ initialPoolSize ∧
  (∃ s' launched,
     start 0 "pkgA" (Some 0%nat) (after_store_new "pkgA" (st sy_init)) = Ok tt s' ∧
     goroutines s' = goroutines (after_store_new "pkgA" (st sy_init)) ++ launched ∧
     launched = replicate (Z.to_nat initialPoolSize) (Spawned 0 "pkgA") ∧
     Z.of_nat (length launched) = initialPoolSize ∧
     trace s' = trace (after_store_new "pkgA" (st sy_init))
                  ++ replicate (Z.to_nat initialPoolSize) (EvGo 0 "pkgA") ∧
     ∃ p', heap s' !! 0%nat = Some p' ∧
       readyDBs p' = Some {| buf := []; cap := initialPoolSize |}) ∧
  backgroundDBPoolsByName (st sy_pool) !! "pkgA" = Some 0%nat ∧
  pristineDBs_enter "pkgA" None (st sy_pool) = Ok 0%nat (st sy_called) ∧
  0%nat = 0%nat ∧
  goroutines (st sy_called) = goroutines (st sy_pool) ++ [Spawned 0 "pkgA"] ∧
  trace (st sy_called) = trace (st sy_pool) ++ [EvGo 0 "pkgA"].
Proof.
  assert (heap (after_store_new "pkgA" (st sy_init)) !! 0%nat = Some zero_pool) as Hp
    by (vm_compute; reflexivity).
  assert (label ≠ "") as Hl by (vm_compute; discriminate).
  assert (0 ≤ initialPoolSize) as Hn by (vm_compute; discriminate).
  assert (backgroundDBPoolsByName (st sy_pool) !! "pkgA" = Some 0%nat) as Hb
    by (vm_compute; reflexivity).
  assert (pristineDBs_enter "pkgA" None (st sy_pool) = Ok 0%nat (st sy_called)) as He
    by (vm_compute; reflexivity).
  split; [exact Hp|]. split; [exact Hl|]. split; [exact Hn|].
  split; [exact (proj1 replenishment 0%nat "pkgA" (Some 0%nat) zero_pool _ Hp Hl Hn)|].
  split; [exact Hb|]. split; [exact He|].
  exact (proj2 replenishment "pkgA" None 0%nat 0%nat _ _ Hb He).
Defined.

(** ** C8 *)

Lemma dbname_unique_witness :
  provision 0 "pkgA" 1 (st sy_allocated) =
    Ok ("dbname=" +:+ name_1) (final (provision 0 "pkgA" 1 (st sy_allocated))) ∧
  (∃ cerr rest,
     trace (final (provision 0 "pkgA" 1 (st sy_allocated))) =
       trace (st sy_allocated)
         ++ EvCreatedb (dbname_of "pkgA" label 1 Getpid) cerr
         :: EvOpen ("dbname=" +:+ dbname_of "pkgA" label 1 Getpid) None
         :: rest) ∧
  1 ≠ 2 ∧
  dbname_of "pkgA" "testdb" 1 4242 ≠ dbname_of "pkgA" "testdb" 2 4242 ∧
  4242 ≠ 4243 ∧
  dbname_of "pkgA" "testdb" 12 4242 ≠ dbname_of "pkgB" "other" 1 4243.
Proof.
  assert (provision 0 "pkgA" 1 (st sy_allocated) =
            Ok ("dbname=" +:+ name_1) (final (provision 0 "pkgA" 1 (st sy_allocated))))
    as Hrun by (vm_compute; reflexivity).
  assert (1 ≠ 2) as H12 by discriminate.
  assert (4242 ≠ 4243) as Hpid by discriminate.
  split; [exact Hrun|].
  split; [exact (proj1 dbname_unique 0%nat "pkgA" 1 _ _ _ Hrun)|].
  split; [exact H12|].
  split; [exact (proj1 (proj2 dbname_unique) "pkgA" "testdb" 1 2 4242 H12)|].
  split; [exact Hpid|].
  exact (proj2 (proj2 dbname_unique) "pkgA" "testdb" "pkgB" "other" 12 1 4242 4243 Hpid).
Defined.

(** ** C9 *)

Lemma nil_schema_pool_panics_witness :
  label ≠ "" ∧ 0 ≤ initialPoolSize ∧
  backgroundDBPoolsByName (st sy_init) !! "pkgB" = None ∧
  ∃ b sy1 p,
    sys_step (Call "pkgB" None) sy_init = Some (Continue sy1) ∧
    backgroundDBPoolsByName (st sy1) !! "pkgB" = Some b ∧
    heap (st sy1) !! b = Some p ∧ schema p = None ∧
    ∀ sy2 g name id,
      steps sy1 sy2 →
      goroutines (st sy2) !! g = Some (Allocated b name id) →
      ∃ s', provision b name id (st sy2) = Stop (GoPanic NilDereference) s' ∧
            sys_step (Run g) sy2 = Some (Crash (GoPanic NilDereference) s').
Proof.
  assert (label ≠ "") as Hl by (vm_compute; discriminate).
  assert (0 ≤ initialPoolSize) as Hn by (vm_compute; discriminate).
  assert (backgroundDBPoolsByName (st sy_init) !! "pkgB" = None) as Hb
    by (vm_compute; reflexivity).
  split; [exact Hl|]. split; [exact Hn|]. split; [exact Hb|].
  exact (nil_schema_pool_panics "pkgB" sy_init Hl Hn Hb).
Defined.

(** ** C10 *)

Lemma schema_compared_by_identity_witness :
  backgroundDBPoolsByName (st sy_pool) !! "pkgA" = Some 0%nat ∧
  heap (st sy_pool) !! 0%nat = Some pool_A ∧
  schema pool_A = Some 0%nat ∧
  1%nat ≠ 0%nat ∧
  schema_at 1%nat = schema_at 0%nat ∧
  pristineDBs "pkgA" (Some 1%nat) sy_pool (Dies (LogFatal (SchemaMismatch "pkgA"))) ∧
  ∀ out, pristineDBs "pkgA" (Some 1%nat) sy_pool out →
         out = Dies (LogFatal (SchemaMismatch "pkgA")).
Proof.
  assert (backgroundDBPoolsByName (st sy_pool) !! "pkgA" = Some 0%nat) as Hb
    by (vm_compute; reflexivity).
  assert (heap (st sy_pool) !! 0%nat = Some pool_A) as Hp by (vm_compute; reflexivity).
  assert (schema pool_A = Some 0%nat) as Hs by (vm_compute; reflexivity).
  assert (1%nat ≠ 0%nat) as Hne by discriminate.
  assert (schema_at 1%nat = schema_at 0%nat) as Heq by reflexivity.
  repeat (split; [assumption|]).
  exact (schema_compared_by_identity "pkgA" 0%nat pool_A 0%nat 1%nat sy_pool
           Hb Hp Hs Hne Heq).
Defined.
